(** * Reaction-Cleaner-Bot: the task registry and reconciliation engine

    A shallow embedding of [src/index.ts]: the URL locator
    ([parseMessageUrl]), the in-memory task map ([cleaningTasks]) with the
    interval timers of the runtime, the SQLite table [tracked_messages]
    behind its four prepared statements, the functions [startCleaning],
    [stopCleaning] and [restoreCleaningTasks], the bodies of the three
    state-changing slash commands and the two signal handlers.

    Strings are sequences of bytes (UTF-8), the task map is a finite map
    keyed by the message URL, the table is the list of its rows in rowid
    order.  What the program gets from outside (the [URL] class of the
    runtime, the Discord gateway, the outcome of an SQLite statement, the
    outcome of one [removeAll] call) is an explicit parameter of the function
    that consumes it.  A handler runs to completion before the next event is
    taken: the [await]s inside a handler are not points where another
    handler is interleaved.  The period of the intervals (5000 ms) is not
    part of the state. *)

From Stdlib Require Import Ascii String List Bool Arith NArith Lia.
From stdpp Require Import base option list gmap strings.

Open Scope string_scope.
Open Scope nat_scope.

(** ** JavaScript string primitives used by the source *)

Module Js.

(** [s.split(sep)] for a one-character separator: never the empty array,
    the empty string splits into the array of one empty string. *)
Fixpoint split (sep : ascii) (s : string) : list string :=
  match s with
  | EmptyString => [EmptyString]
  | String c s' =>
      if Ascii.eqb c sep then EmptyString :: split sep s'
      else match split sep s' with
           | [] => [String c EmptyString]
           | p :: ps => String c p :: ps
           end
  end.

(** Truthiness of a string value: every string but the empty one. *)
Definition truthy (s : string) : bool :=
  match s with EmptyString => false | String _ _ => true end.

(** [part.length > 0] *)
Definition nonempty (part : string) : bool := 0 <? String.length part.

End Js.

(** ** The runtime's [URL] class

    [parseMessageUrl] uses two things of the runtime: whether [new URL(s)]
    throws, and the [pathname] of the URL it builds.  The engine is written
    against this interface; [Whatwg.pathname] below is an instance. *)

Class UrlApi := url_pathname : string → option string.

Module Whatwg.

(** Modelled from the WHATWG URL Standard (the basic URL parser without a
    base URL, and the [pathname] getter).  Modelled: stripping of leading
    and trailing C0 controls and spaces, removal of tabs and newlines, the
    scheme, the slashes after a special scheme, credentials, the port, the
    path states with dot segments and percent-encoding, opaque paths.
    Not modelled: percent-decoding, IDNA and address-literal validation of
    the host (a host without forbidden code points is accepted as written)
    and the Windows drive letter quirks of [file:]. *)

Definition code (c : ascii) : nat := nat_of_ascii c.

Definition between (lo hi : nat) (c : ascii) : bool :=
  (lo <=? code c) && (code c <=? hi).

Definition is_upper := between 65 90.
Definition is_alpha (c : ascii) : bool := is_upper c || between 97 122 c.
Definition is_digit := between 48 57.
Definition to_lower (c : ascii) : ascii :=
  if is_upper c then ascii_of_nat (code c + 32) else c.
Definition one_of (set : string) (c : ascii) : bool :=
  existsb (Ascii.eqb c) (list_ascii_of_string set).

Definition c0_or_space (c : ascii) : bool := code c <=? 32.
Definition tab_or_newline (c : ascii) : bool :=
  (code c =? 9) || (code c =? 10) || (code c =? 13).

Fixpoint drop_while (p : ascii → bool) (s : list ascii) : list ascii :=
  match s with
  | c :: s' => if p c then drop_while p s' else s
  | [] => []
  end.

Fixpoint span (p : ascii → bool) (s : list ascii) : list ascii * list ascii :=
  match s with
  | c :: s' =>
      if p c then let '(a, b) := span p s' in (c :: a, b) else ([], s)
  | [] => ([], [])
  end.

Definition preprocess (s : list ascii) : list ascii :=
  let s1 := drop_while c0_or_space s in
  let s2 := rev (drop_while c0_or_space (rev s1)) in
  List.filter (λ c, negb (tab_or_newline c)) s2.

(** scheme start state and scheme state; without a base URL everything
    else is a failure *)
Definition scheme_char (c : ascii) : bool :=
  is_alpha c || is_digit c || one_of "+-." c.

Definition parse_scheme (s : list ascii) : option (string * list ascii) :=
  match s with
  | c :: r =>
      if is_alpha c then
        let '(sch, rest) := span scheme_char r in
        match rest with
        | ":"%char :: rest' =>
            Some (string_of_list_ascii (map to_lower (c :: sch)), rest')
        | _ => None
        end
      else None
  | [] => None
  end.

Definition is_special (scheme : string) : bool :=
  bool_decide (scheme ∈ ["http"; "https"; "ws"; "wss"; "ftp"; "file"]).

(** percent-encoding of one byte *)
Definition hex_digit (n : nat) : ascii :=
  if n <? 10 then ascii_of_nat (48 + n) else ascii_of_nat (55 + n).

Definition percent_encode (inset : ascii → bool) (c : ascii) : list ascii :=
  if inset c then
    ["%"%char; hex_digit (code c / 16); hex_digit (code c mod 16)]
  else [c].

Definition c0_control_set (c : ascii) : bool :=
  (code c <? 32) || (126 <? code c).
Definition path_set (c : ascii) : bool :=
  c0_control_set c || (code c =? 34) || one_of " #<>?^`{}" c.

Definition lower_string (s : list ascii) : string :=
  string_of_list_ascii (map to_lower s).

Definition single_dot (seg : list ascii) : bool :=
  bool_decide (lower_string seg ∈ ["."; "%2e"]).
Definition double_dot (seg : list ascii) : bool :=
  bool_decide (lower_string seg ∈ [".."; ".%2e"; "%2e."; "%2e%2e"]).

(** split at every character of [seps] *)
Fixpoint segments (seps : string) (s : list ascii) : list (list ascii) :=
  match s with
  | [] => [[]]
  | c :: s' =>
      if one_of seps c then [] :: segments seps s'
      else match segments seps s' with
           | [] => [[c]]
           | p :: ps => (c :: p) :: ps
           end
  end.

(** path state: [path] is the URL's path so far, most recent segment
    first *)
Fixpoint path_state (segs : list (list ascii)) (path : list string)
  : list string :=
  match segs with
  | [] => rev path
  | seg :: rest =>
      let buffer := concat (map (percent_encode path_set) seg) in
      let last := match rest with [] => true | _ => false end in
      let path' :=
        if double_dot buffer then
          let shortened := tail path in
          if last then EmptyString :: shortened else shortened
        else if single_dot buffer then
          if last then EmptyString :: path else path
        else string_of_list_ascii buffer :: path in
      path_state rest path'
  end.

Definition serialize_path (path : list string) : string :=
  String.concat EmptyString (map (λ seg, "/" +:+ seg) path).

Definition hierarchical_pathname (special : bool) (rest : list ascii)
  : string :=
  let seps := if special then "/\" else "/" in
  let '(p, _) := span (λ c, negb (one_of "?#" c)) rest in
  match p with
  | [] => if special then "/" else EmptyString
  | c :: p' =>
      serialize_path
        (path_state (segments seps (if one_of seps c then p' else p)) [])
  end.

(** authority state, host state and port state *)
Definition forbidden_host (c : ascii) : bool :=
  (code c =? 0) || tab_or_newline c || (code c =? 32)
  || one_of "#/:<>?@[\]^|" c.
Definition forbidden_domain (c : ascii) : bool :=
  forbidden_host c || (code c <? 32) || (code c =? 127).

Fixpoint after_last_at (s acc : list ascii) : list ascii :=
  match s with
  | [] => acc
  | c :: s' =>
      if Ascii.eqb c "@" then after_last_at s' s' else after_last_at s' acc
  end.

Definition is_nil {A} (l : list A) : bool :=
  match l with [] => true | _ => false end.

Fixpoint decimal (ds : list ascii) (acc : N) : N :=
  match ds with
  | [] => acc
  | d :: ds' => decimal ds' (N.min 100000 (10 * acc + N.of_nat (code d - 48)))
  end.

Definition port_ok (port : list ascii) : bool :=
  forallb is_digit port && (decimal port 0 <=? 65535)%N.

(** an address literal in brackets: only the closing bracket is checked *)
Definition bracketed (hostport : list ascii) : option (list ascii) :=
  let '(_, rest) := span (λ c, negb (Ascii.eqb c "]")) hostport in
  match rest with
  | _ :: after => Some after
  | [] => None
  end.

Definition host_ok (special : bool) (auth : list ascii) : bool :=
  let hostport := after_last_at auth auth in
  let at_seen := bool_decide (hostport ≠ auth) in
  let bad := if special then forbidden_domain else forbidden_host in
  if at_seen && is_nil hostport then false
  else
    match hostport with
    | "["%char :: _ =>
        match bracketed hostport with
        | Some [] => true
        | Some (":"%char :: port) => port_ok port
        | _ => false
        end
    | _ =>
        let '(host, rest) := span (λ c, negb (Ascii.eqb c ":")) hostport in
        negb (existsb bad host)
        && match rest with
           | [] => negb (special && is_nil host)
           | _ :: port => negb (is_nil host) && port_ok port
           end
    end.

(** file host state: no credentials, no port, the host may be empty *)
Definition file_host_ok (auth : list ascii) : bool :=
  match auth with
  | "["%char :: _ =>
      match bracketed auth with Some [] => true | _ => false end
  | _ => negb (existsb forbidden_domain auth)
  end.

Definition is_slash (special : bool) (c : ascii) : bool :=
  one_of (if special then "/\" else "/") c.

Definition pathname (input : string) : option string :=
  match parse_scheme (preprocess (list_ascii_of_string input)) with
  | None => None
  | Some (scheme, rest) =>
      if bool_decide (scheme = "file") then
        match rest with
        | a :: b :: rest' =>
            if is_slash true a && is_slash true b then
              let '(auth, p) := span (λ c, negb (one_of "/\?#" c)) rest' in
              if file_host_ok auth
              then Some (hierarchical_pathname true p) else None
            else Some (hierarchical_pathname true rest)
        | _ => Some (hierarchical_pathname true rest)
        end
      else if is_special scheme then
        let rest' := drop_while (is_slash true) rest in
        let '(auth, p) := span (λ c, negb (one_of "/\?#" c)) rest' in
        if host_ok true auth
        then Some (hierarchical_pathname true p) else None
      else
        match rest with
        | "/"%char :: "/"%char :: rest' =>
            let '(auth, p) := span (λ c, negb (one_of "/?#" c)) rest' in
            if host_ok false auth
            then Some (hierarchical_pathname false p) else None
        | "/"%char :: _ => Some (hierarchical_pathname false rest)
        | _ =>
            let '(p, _) := span (λ c, negb (one_of "?#" c)) rest in
            Some (string_of_list_ascii
                    (concat (map (percent_encode c0_control_set) p)))
        end
  end.

End Whatwg.

#[global] Instance whatwg_url : UrlApi := Whatwg.pathname.

(** ** Resource locator: [parseMessageUrl] *)

Record ParsedUrl := { channelId : string; messageId : string }.

Section Locator.
Context `{UrlApi}.

Definition parseMessageUrl (messageUrl : string) : option ParsedUrl :=
  match url_pathname messageUrl with
  | None => None                       (* [new URL] threw: the catch block *)
  | Some pathname =>
      let pathParts := List.filter Js.nonempty (Js.split "/" pathname) in
      if (4 <=? length pathParts)
         && bool_decide (pathParts !! 0 = Some "channels")
      then
        match pathParts !! 2, pathParts !! 3 with
        | Some channelId, Some messageId =>
            if Js.truthy channelId && Js.truthy messageId
            then Some {| channelId := channelId; messageId := messageId |}
            else None
        | _, _ => None
        end
      else None
  end.

End Locator.

(** ** The Discord gateway *)

(** [ChannelType] of discord.js, with the number each member stands for
    (the number appears in an error text of [startCleaning]). *)
Inductive ChannelType :=
| GuildText | DM | GuildVoice | GroupDM | GuildCategory | GuildAnnouncement
| AnnouncementThread | PublicThread | PrivateThread | GuildStageVoice
| GuildDirectory | GuildForum | GuildMedia.

Definition channel_type_number (t : ChannelType) : string :=
  match t with
  | GuildText => "0" | DM => "1" | GuildVoice => "2" | GroupDM => "3"
  | GuildCategory => "4" | GuildAnnouncement => "5"
  | AnnouncementThread => "10" | PublicThread => "11" | PrivateThread => "12"
  | GuildStageVoice => "13" | GuildDirectory => "14" | GuildForum => "15"
  | GuildMedia => "16"
  end.

Record Channel := { chan_id : string; chan_type : ChannelType }.

(** A live message handle: the message it denotes. *)
Record Message := { msg_channel : string; msg_id : string }.

(** Outcome of an awaited fetch: a value, [null], or a rejection whose
    reason is kept as the text [String(error)] gives. *)
Inductive Fetched (A : Type) :=
| Resolved (a : A)
| Null
| Rejected (reason : string).
Arguments Resolved {A} a.
Arguments Null {A}.
Arguments Rejected {A} reason.

Record Gateway := {
  channels_fetch : string → Fetched Channel;
  (** [targetChannel.messages.fetch(messageId)]: [None] when it throws *)
  messages_fetch : Channel → string → option Message;
}.

(** What the outside does during one iteration of a handler's loop: the
    answers of the gateway, whether the one SQLite statement the iteration
    runs throws (and the text of what it throws), and the value of
    [CURRENT_TIMESTAMP]. *)
Record Env := {
  gateway : Gateway;
  db_throws : option string;
  timestamp : string;
}.

(** ** Program state *)

(** Row of the table [tracked_messages]. *)
Record TrackedMessage := {
  message_url : string;
  channel_id : string;
  message_id : string;
  added_at : string;
}.

(** The closure an interval runs: it captured [messageUrl] and [message]. *)
Record Timer := { timer_url : string; timer_message : Message }.

Record State := {
  (** [const cleaningTasks: Record<string, NodeJS.Timeout>]: URL to the
      handle [setInterval] returned.  Every key is a string that
      [parseMessageUrl] accepted or a key of the table, so the properties
      inherited from [Object.prototype] are never looked up. *)
  cleaningTasks : gmap string nat;
  (** the intervals the runtime will keep firing *)
  timers : gmap nat Timer;
  (** the next handle [setInterval] hands out *)
  next_timer : nat;
  (** the rows of [tracked_messages], in rowid order *)
  tracked_messages : list TrackedMessage;
  (** whether the connection [db] is open *)
  db_open : bool;
}.

Definition initial : State :=
  {| cleaningTasks := ∅; timers := ∅; next_timer := 0;
     tracked_messages := []; db_open := true |}.

Definition with_rows (rows : list TrackedMessage) (st : State) : State :=
  {| cleaningTasks := cleaningTasks st; timers := timers st;
     next_timer := next_timer st; tracked_messages := rows;
     db_open := db_open st |}.

(** ** Durable registry: the prepared statements *)

Definition has_key (url : string) (rows : list TrackedMessage) : bool :=
  existsb (λ row, bool_decide (message_url row = url)) rows.

(** [INSERT OR IGNORE INTO tracked_messages (message_url, channel_id,
    message_id) VALUES (?, ?, ?)], [added_at] by default *)
Definition insertMessage (now url channel message : string)
    (rows : list TrackedMessage) : list TrackedMessage :=
  if has_key url rows then rows
  else rows ++ [{| message_url := url; channel_id := channel;
                   message_id := message; added_at := now |}].

(** [DELETE FROM tracked_messages WHERE message_url = ?] *)
Definition deleteMessage (url : string) (rows : list TrackedMessage)
    : list TrackedMessage :=
  List.filter (λ row, negb (bool_decide (message_url row = url))) rows.

(** [SELECT * FROM tracked_messages] *)
Definition getAllMessages (rows : list TrackedMessage) : list TrackedMessage :=
  rows.

(** [DELETE FROM tracked_messages] *)
Definition clearAllMessages (rows : list TrackedMessage)
    : list TrackedMessage := [].

(** ** The scheduler *)

Record StartResult := {
  success : bool;
  error : option string;
  message : option Message;
}.

Definition failure (text : string) : StartResult :=
  {| success := false; error := Some text; message := None |}.

Definition channel_not_found := "Channel not found".
Definition forum_channel :=
  "Forum channel detected - please use the specific thread URL, not the forum channel URL".
Definition message_not_found :=
  "Message not found or bot lacks permission to access it".
Definition already_cleaning := "Already cleaning this message".

(** The chain of tests on [channel.type]: [None] when a target channel is
    chosen, otherwise the error text returned. *)
Definition unsupported (t : ChannelType) : option string :=
  match t with
  | GuildText | GuildAnnouncement | GuildVoice => None
  | PublicThread | PrivateThread | AnnouncementThread => None
  | GuildForum => Some forum_channel
  | _ => Some ("Unsupported channel type: " +:+ channel_type_number t)
  end.

(** [setInterval(callback, 5000)] *)
Definition setInterval (messageUrl : string) (msg : Message) (st : State)
    : State :=
  let handle := next_timer st in
  {| cleaningTasks := <[messageUrl := handle]> (cleaningTasks st);
     timers := <[handle := {| timer_url := messageUrl;
                               timer_message := msg |}]> (timers st);
     next_timer := S handle;
     tracked_messages := tracked_messages st;
     db_open := db_open st |}.

Definition startCleaning (gw : Gateway) (messageUrl channelId messageId : string)
    (st : State) : StartResult * State :=
  match channels_fetch gw channelId with
  | Rejected reason => (failure reason, st)          (* the outer catch *)
  | Null => (failure channel_not_found, st)
  | Resolved channel =>
      match unsupported (chan_type channel) with
      | Some text => (failure text, st)
      | None =>
          match messages_fetch gw channel messageId with
          | None => (failure message_not_found, st)
          | Some msg =>
              match cleaningTasks st !! messageUrl with
              | Some _ => (failure already_cleaning, st)
              | None =>
                  ({| success := true; error := None; message := Some msg |},
                   setInterval messageUrl msg st)
              end
          end
      end
  end.

Definition stopCleaning (messageUrl : string) (st : State) : bool * State :=
  match cleaningTasks st !! messageUrl with
  | Some handle =>
      (true,
       {| cleaningTasks := delete messageUrl (cleaningTasks st);
          timers := delete handle (timers st);         (* clearInterval *)
          next_timer := next_timer st;
          tracked_messages := tracked_messages st;
          db_open := db_open st |})
  | None => (false, st)
  end.

(** One firing of an interval: what the callback logged, if the interval is
    still alive.  [removed] is whether [message.reactions.removeAll()]
    succeeded; the callback catches its failure. *)
Inductive Firing :=
| Cleaned (url : string) (msg : Message)
| CleanError (url : string) (msg : Message).

Definition fire (handle : nat) (removed : bool) (st : State)
    : option Firing * State :=
  match timers st !! handle with
  | Some t =>
      (Some (if removed then Cleaned (timer_url t) (timer_message t)
             else CleanError (timer_url t) (timer_message t)), st)
  | None => (None, st)
  end.

(** [restoreCleaningTasks]: the loop over the rows read at the start.  The
    [deleteMessage.run] of the loop is not inside a [try]: when it throws,
    the function stops there. *)
Fixpoint restoreLoop (world : nat → Env) (i : nat)
    (result : list TrackedMessage) (st : State) : State :=
  match result with
  | [] => st
  | row :: rest =>
      let w := world i in
      let '(startResult, st1) :=
        startCleaning (gateway w) (message_url row) (channel_id row)
                      (message_id row) st in
      if success startResult then restoreLoop world (S i) rest st1
      else
        match db_throws w with
        | Some _ => st1
        | None =>
            restoreLoop world (S i) rest
              (with_rows (deleteMessage (message_url row)
                            (tracked_messages st1)) st1)
        end
  end.

Definition restoreCleaningTasks (world : nat → Env) (st : State) : State :=
  restoreLoop world 0 (getAllMessages (tracked_messages st)) st.

(** ** The slash commands

    The handlers take the array [urls] the option string was split into; a
    loop body takes the reply lists built so far and returns them with the
    entry it pushed. *)

Module EnableCmd.

Record Lists := {
  started : list string;
  alreadyRunning : list string;
  invalid : list string;
  errors : list string;
}.

Definition nothing : Lists :=
  {| started := []; alreadyRunning := []; invalid := []; errors := [] |}.

Definition push_started (url : string) (acc : Lists) : Lists :=
  {| started := started acc ++ [url]; alreadyRunning := alreadyRunning acc;
     invalid := invalid acc; errors := errors acc |}.
Definition push_alreadyRunning (url : string) (acc : Lists) : Lists :=
  {| started := started acc; alreadyRunning := alreadyRunning acc ++ [url];
     invalid := invalid acc; errors := errors acc |}.
Definition push_invalid (url : string) (acc : Lists) : Lists :=
  {| started := started acc; alreadyRunning := alreadyRunning acc;
     invalid := invalid acc ++ [url]; errors := errors acc |}.
Definition push_errors (text : string) (acc : Lists) : Lists :=
  {| started := started acc; alreadyRunning := alreadyRunning acc;
     invalid := invalid acc; errors := errors acc ++ [text] |}.

Section Handler.
Context `{UrlApi}.

(** body of [for (const messageUrl of urls)] *)
Definition body (w : Env) (messageUrl : string) (acc : Lists) (st : State)
    : Lists * State :=
  match parseMessageUrl messageUrl with
  | None => (push_invalid messageUrl acc, st)
  | Some parsed =>
      let '(result, st1) :=
        startCleaning (gateway w) messageUrl (channelId parsed)
                      (messageId parsed) st in
      if success result then
        match db_throws w with
        | None =>
            (push_started messageUrl acc,
             with_rows (insertMessage (timestamp w) messageUrl
                          (channelId parsed) (messageId parsed)
                          (tracked_messages st1)) st1)
        | Some dbError =>
            (push_errors (messageUrl +:+ ": Database error - " +:+ dbError)
                         acc,
             (stopCleaning messageUrl st1).2)
        end
      else if bool_decide (error result = Some already_cleaning) then
        (push_alreadyRunning messageUrl acc, st1)
      else
        (push_errors (messageUrl +:+ ": "
                      +:+ default "undefined" (error result)) acc, st1)
  end.

Fixpoint loop (world : nat → Env) (i : nat) (urls : list string)
    (acc : Lists) (st : State) : Lists * State :=
  match urls with
  | [] => (acc, st)
  | messageUrl :: rest =>
      let '(acc1, st1) := body (world i) messageUrl acc st in
      loop world (S i) rest acc1 st1
  end.

Definition handler (world : nat → Env) (urls : list string) (st : State)
    : Lists * State :=
  loop world 0 urls nothing st.

End Handler.
End EnableCmd.

Module DisableCmd.

Record Lists := {
  stopped : list string;
  notRunning : list string;
  invalid : list string;
}.

Definition nothing : Lists :=
  {| stopped := []; notRunning := []; invalid := [] |}.

Definition push_stopped (url : string) (acc : Lists) : Lists :=
  {| stopped := stopped acc ++ [url]; notRunning := notRunning acc;
     invalid := invalid acc |}.
Definition push_notRunning (url : string) (acc : Lists) : Lists :=
  {| stopped := stopped acc; notRunning := notRunning acc ++ [url];
     invalid := invalid acc |}.
Definition push_invalid (url : string) (acc : Lists) : Lists :=
  {| stopped := stopped acc; notRunning := notRunning acc;
     invalid := invalid acc ++ [url] |}.

Section Handler.
Context `{UrlApi}.

(** body of [for (const url of urls)] *)
Definition body (w : Env) (url : string) (acc : Lists) (st : State)
    : Lists * State :=
  match parseMessageUrl url with
  | None => (push_invalid url acc, st)
  | Some _ =>
      let '(wasRunning, st1) := stopCleaning url st in
      if wasRunning then
        match db_throws w with
        | None =>
            (push_stopped url acc,
             with_rows (deleteMessage url (tracked_messages st1)) st1)
        | Some _ => (push_stopped url acc, st1)
        end
      else (push_notRunning url acc, st1)
  end.

Fixpoint loop (world : nat → Env) (i : nat) (urls : list string)
    (acc : Lists) (st : State) : Lists * State :=
  match urls with
  | [] => (acc, st)
  | url :: rest =>
      let '(acc1, st1) := body (world i) url acc st in
      loop world (S i) rest acc1 st1
  end.

Definition handler (world : nat → Env) (urls : list string) (st : State)
    : Lists * State :=
  loop world 0 urls nothing st.

End Handler.
End DisableCmd.

(** [Object.keys(cleaningTasks)] *)
Definition activeUrls (st : State) : list string :=
  (map_to_list (cleaningTasks st)).*1.

(** [for (const url of activeUrls) stopCleaning(url)], also the [forEach] of
    the signal handlers *)
Definition stopEach (urls : list string) (st : State) : State :=
  foldl (λ s url, (stopCleaning url s).2) st urls.

Module DisableAllCmd.

Inductive Reply :=
| NothingCleaned                 (* "No messages are currently being cleaned." *)
| StoppedAll (count : nat)
| ClearFailed (count : nat).     (* "Warning: Database clear failed." *)

Definition handler (w : Env) (st : State) : Reply * State :=
  let urls := activeUrls st in
  if length urls =? 0 then (NothingCleaned, st)
  else
    let st1 := stopEach urls st in
    match db_throws w with
    | None =>
        (StoppedAll (length urls),
         with_rows (clearAllMessages (tracked_messages st1)) st1)
    | Some _ => (ClearFailed (length urls), st1)
    end.

End DisableAllCmd.

(** ** Process termination *)

Definition db_close (st : State) : State :=
  {| cleaningTasks := cleaningTasks st; timers := timers st;
     next_timer := next_timer st; tracked_messages := tracked_messages st;
     db_open := false |}.

Definition onSIGINT (st : State) : State :=
  db_close (stopEach (activeUrls st) st).

Definition onSIGTERM (st : State) : State :=
  db_close (stopEach (activeUrls st) st).

(** ** Everything that changes the state *)

Inductive Event :=
| Ready (world : nat → Env)                           (* [client.once("ready")] *)
| EnableReactionCleaning (world : nat → Env) (urls : list string)
| DisableReactionCleaning (world : nat → Env) (urls : list string)
| DisableAllCleaning (w : Env)
| IntervalFires (handle : nat) (removed : bool)
| SIGINT
| SIGTERM
| ReadOnlyCommand.     (* list-reaction-cleaning, ping, source-code *)

Definition step `{UrlApi} (ev : Event) (st : State) : State :=
  match ev with
  | Ready world => restoreCleaningTasks world st
  | EnableReactionCleaning world urls => (EnableCmd.handler world urls st).2
  | DisableReactionCleaning world urls => (DisableCmd.handler world urls st).2
  | DisableAllCleaning w => (DisableAllCmd.handler w st).2
  | IntervalFires handle removed => (fire handle removed st).2
  | SIGINT => onSIGINT st
  | SIGTERM => onSIGTERM st
  | ReadOnlyCommand => st
  end.

Definition run `{UrlApi} (evs : list Event) (st : State) : State :=
  foldl (λ s ev, step ev s) st evs.

(** An explicit stop: one of the two disable commands or a termination
    signal. *)
Definition explicit_stop (ev : Event) : bool :=
  match ev with
  | DisableReactionCleaning _ _ | DisableAllCleaning _ | SIGINT | SIGTERM => true
  | _ => false
  end.

(** ** Views of the state the properties speak about *)

(** The intervals alive for a reference: the ActiveTasks of that reference. *)
Definition tasks_of (url : string) (st : State) : gmap nat Timer :=
  filter (λ kv, timer_url kv.2 = url) (timers st).

(** The references with a row in the table. *)
Definition tracked (st : State) : list string :=
  message_url <$> tracked_messages st.

(** The two in-memory structures agree: the task map points at live
    intervals of the same reference, every live interval is in the task map,
    handles are below the next one; and the table respects its primary
    key. *)
Record consistent (st : State) : Prop := {
  tasks_alive : ∀ url handle,
    cleaningTasks st !! url = Some handle →
    ∃ t, timers st !! handle = Some t ∧ timer_url t = url;
  timers_owned : ∀ handle t,
    timers st !! handle = Some t →
    cleaningTasks st !! timer_url t = Some handle;
  handles_below : ∀ handle,
    is_Some (timers st !! handle) → handle < next_timer st;
  primary_key : NoDup (tracked st);
}.

(** Every ActiveTask is backed by a row. *)
Definition backed (st : State) : Prop :=
  ∀ url, is_Some (cleaningTasks st !! url) → url ∈ tracked st.

(** ** Splitting the option string into URLs

    [messageUrlsRaw.split(/[\s,\n]+/).map((u) => u.trim())
       .filter((u) => u.length > 0)], on UTF-8 bytes: a code point that [\s]
    matches is the byte sequence that encodes it. *)

Module Batch.

Definition bytes (codes : list nat) : list ascii := map ascii_of_nat codes.

(** WhiteSpace and LineTerminator of ECMAScript: what [\s] matches and what
    [trim] strips. *)
Definition white_space : list (list ascii) :=
  [ bytes [9]; bytes [10]; bytes [11]; bytes [12]; bytes [13]; bytes [32];
    bytes [194; 160];                                    (* U+00A0 *)
    bytes [225; 154; 128];                               (* U+1680 *)
    bytes [226; 128; 128]; bytes [226; 128; 129]; bytes [226; 128; 130];
    bytes [226; 128; 131]; bytes [226; 128; 132]; bytes [226; 128; 133];
    bytes [226; 128; 134]; bytes [226; 128; 135]; bytes [226; 128; 136];
    bytes [226; 128; 137]; bytes [226; 128; 138];        (* U+2000..U+200A *)
    bytes [226; 128; 168]; bytes [226; 128; 169];        (* U+2028, U+2029 *)
    bytes [226; 128; 175];                               (* U+202F *)
    bytes [226; 129; 159];                               (* U+205F *)
    bytes [227; 128; 128];                               (* U+3000 *)
    bytes [239; 187; 191] ].                             (* U+FEFF *)

(** the class [[\s,\n]] *)
Definition separators : list (list ascii) := bytes [44] :: white_space.

Fixpoint starts_with (p s : list ascii) : bool :=
  match p, s with
  | [], _ => true
  | a :: p', b :: s' => Ascii.eqb a b && starts_with p' s'
  | _ :: _, [] => false
  end.

(** number of bytes of the member of [class] that [s] starts with, 0 when it
    starts with none *)
Definition match_len (class : list (list ascii)) (s : list ascii) : nat :=
  match find (λ p, starts_with p s) class with
  | Some p => length p
  | None => 0
  end.

(** [s.split(/[class]+/)]: the pieces between the maximal runs of members
    of [class].  [skip] counts the bytes still to pass of the member being
    read, [in_run] tells that the last thing read was a member. *)
Fixpoint split_runs (class : list (list ascii)) (s : list ascii)
    (skip : nat) (in_run : bool) : list (list ascii) :=
  match s with
  | [] => [[]]
  | c :: s' =>
      match skip with
      | S k => split_runs class s' k in_run
      | 0 =>
          match match_len class (c :: s') with
          | S k =>
              if in_run then split_runs class s' k true
              else [] :: split_runs class s' k true
          | 0 =>
              match split_runs class s' 0 false with
              | piece :: pieces => (c :: piece) :: pieces
              | [] => [[c]]
              end
          end
      end
  end.

(** [trimStart]: members of [class] are dropped from the front *)
Fixpoint trim_front (class : list (list ascii)) (s : list ascii) (skip : nat)
    : list ascii :=
  match s with
  | [] => []
  | c :: s' =>
      match skip with
      | S k => trim_front class s' k
      | 0 =>
          match match_len class (c :: s') with
          | S k => trim_front class s' k
          | 0 => s
          end
      end
  end.

(** [u.trim()] *)
Definition trim (u : list ascii) : list ascii :=
  rev (trim_front (map (@rev ascii) white_space)
         (rev (trim_front white_space u 0)) 0).

Definition splitUrls (messageUrlsRaw : string) : list string :=
  List.filter Js.nonempty
    (map (λ u, string_of_list_ascii (trim u))
       (split_runs separators (list_ascii_of_string messageUrlsRaw) 0 false)).

End Batch.

(** ** The commands on the option string *)

Module Interaction.
Section Commands.
Context `{UrlApi}.

(** [enable-reaction-cleaning] *)
Definition enableReactionCleaning (world : nat → Env) (messageUrlsRaw : string)
    (st : State) : EnableCmd.Lists * State :=
  EnableCmd.handler world (Batch.splitUrls messageUrlsRaw) st.

(** [disable-reaction-cleaning]: [None] is the reply "No message URL(s)
    provided." of the early return *)
Definition disableReactionCleaning (world : nat → Env) (messageUrlsRaw : string)
    (st : State) : option DisableCmd.Lists * State :=
  let urls := Batch.splitUrls messageUrlsRaw in
  if length urls =? 0 then (None, st)
  else
    let '(lists, st1) := DisableCmd.handler world urls st in
    (Some lists, st1).

End Commands.
End Interaction.

(** ** The list command *)

Module ListCmd.

(** One line of the reply before it is put together: the two marks, the URL
    and the stored [added_at] (its rendering by [toLocaleDateString] depends
    on the locale of the host and is left out). *)
Record Line := {
  isActive : string;
  channelInfo : string;
  line_url : string;
  line_added_at : string;
}.

Record Listing := {
  total : nat;               (* [trackedMessages.length] *)
  activeCount : nat;         (* [Object.keys(cleaningTasks).length] *)
  lines : list Line;
  legend : bool;             (* whether the legend is appended *)
}.

(** [channelTypeEmoji[channel.type] || "❓"] *)
Definition channelTypeEmoji (t : ChannelType) : string :=
  match t with
  | GuildText => "💬"
  | GuildAnnouncement => "📢"
  | PublicThread => "🧵"
  | PrivateThread => "🔒🧵"
  | AnnouncementThread => "📢🧵"
  | _ => "❓"
  end.

Section Handler.
Context `{UrlApi}.

Definition line (w : Env) (row : TrackedMessage) (st : State) : Line :=
  {| isActive :=
       match cleaningTasks st !! message_url row with
       | Some _ => "🟢"
       | None => "🔴"
       end;
     channelInfo :=
       match parseMessageUrl (message_url row) with
       | Some parsed =>
           match channels_fetch (gateway w) (channelId parsed) with
           | Resolved channel => " " +:+ channelTypeEmoji (chan_type channel)
           | Null => EmptyString
           | Rejected _ => EmptyString       (* the empty catch *)
           end
       | None => EmptyString
       end;
     line_url := message_url row;
     line_added_at := added_at row |}.

Fixpoint loop (world : nat → Env) (i : nat) (rows : list TrackedMessage)
    (st : State) : list Line :=
  match rows with
  | [] => []
  | row :: rest => line (world i) row st :: loop world (S i) rest st
  end.

(** [None] is the reply "No messages are currently being tracked for
    cleaning." *)
Definition handler (world : nat → Env) (st : State) : option Listing :=
  let trackedMessages := getAllMessages (tracked_messages st) in
  if length trackedMessages =? 0 then None
  else
    let activeCount := length (activeUrls st) in
    Some {| total := length trackedMessages;
            activeCount := activeCount;
            lines := loop world 0 trackedMessages st;
            legend := negb (activeCount =? length trackedMessages) |}.

End Handler.
End ListCmd.

(** ** Words for the statements about batches *)

(** the one-byte members of the class [[\s,\n]] *)
Definition ascii_separator (c : ascii) : bool :=
  bool_decide (Whatwg.code c ∈ [9; 10; 11; 12; 13; 32; 44]).



(** [p] is a contiguous part of [s] *)
Definition occurs (p s : list ascii) : Prop :=
  ∃ pre post, s = (pre ++ p ++ post)%list.


(** the URLs a list of pieces gives *)
Definition tokens (pieces : list (list ascii)) : list string :=
  List.filter Js.nonempty
    (map (λ u, string_of_list_ascii (Batch.trim u)) pieces).

(** the number of entries in the four lists of the enable reply *)
Definition enable_reported (lists : EnableCmd.Lists) : nat :=
  length (EnableCmd.started lists) + length (EnableCmd.alreadyRunning lists)
  + length (EnableCmd.invalid lists) + length (EnableCmd.errors lists).

(** the number of entries in the three lists of the disable reply *)
Definition disable_reported (lists : DisableCmd.Lists) : nat :=
  length (DisableCmd.stopped lists) + length (DisableCmd.notRunning lists)
  + length (DisableCmd.invalid lists).

(** two enable replies that differ at most in their invalid list *)
Definition same_but_invalid (a b : EnableCmd.Lists) : Prop :=
  EnableCmd.started a = EnableCmd.started b
  ∧ EnableCmd.alreadyRunning a = EnableCmd.alreadyRunning b
  ∧ EnableCmd.errors a = EnableCmd.errors b.

(** a URL the locator rejects *)
Definition unparsable `{UrlApi} (url : string) : bool :=
  bool_decide (parseMessageUrl url = None).

(** the gateway resolves the channel of a row to a channel the bot cleans
    in, and the message in it *)
Definition resolves (gw : Gateway) (row : TrackedMessage) : Prop :=
  ∃ c msg,
    channels_fetch gw (channel_id row) = Resolved c
    ∧ unsupported (chan_type c) = None
    ∧ messages_fetch gw c (message_id row) = Some msg.





#[local] Instance enable_lists_eq_dec : EqDecision EnableCmd.Lists.
Proof. solve_decision. Defined.



(** ** A small world to run the program in *)

Module Fixture.

Definition url : string := "https://discord.com/channels/9/111/222".
Definition other : string := "https://discord.com/channels/9/111/333".

Definition channel : Channel := {| chan_id := "111"; chan_type := GuildText |}.
Definition msg : Message := {| msg_channel := "111"; msg_id := "222" |}.

(** Channel 111 is a text channel that holds message 222 and nothing
    else; no other channel exists. *)
Definition discord : Gateway :=
  {| channels_fetch := λ id,
       if bool_decide (id = "111") then Resolved channel else Null;
     messages_fetch := λ c id,
       if bool_decide (id = "222")
       then Some {| msg_channel := chan_id c; msg_id := id |} else None |}.

Definition calm : Env :=
  {| gateway := discord; db_throws := None;
     timestamp := "2025-01-01 00:00:00" |}.

Definition disk_full : Env :=
  {| gateway := discord;
     db_throws := Some "SqliteError: database or disk is full";
     timestamp := "2025-01-01 00:00:00" |}.

Definition row : TrackedMessage :=
  {| message_url := url; channel_id := "111"; message_id := "222";
     added_at := "2025-01-01 00:00:00" |}.

(** after a restart: the row is in the table, no task is running *)
Definition restarted : State := with_rows [row] initial.

(** [url] is being cleaned and tracked *)
Definition cleaning : State :=
  with_rows [row] (setInterval url msg initial).

End Fixture.

(** * Properties *)

(** ** The locator *)

Lemma filtered_parts_truthy (part : string) (parts : list string) :
  In part (List.filter Js.nonempty parts) → Js.truthy part = true.
Proof.
  intros Hin. apply filter_In in Hin as [_ Hlen].
  destruct part; [discriminate | reflexivity].
Qed.

Section LocatorFacts.
Context `{UrlApi}.

Lemma parseMessageUrl_accepts url pathname guild channel msg rest :
  url_pathname url = Some pathname →
  List.filter Js.nonempty (Js.split "/" pathname)
    = "channels" :: guild :: channel :: msg :: rest →
  parseMessageUrl url = Some {| channelId := channel; messageId := msg |}.
Proof.
  intros Hurl Hparts. unfold parseMessageUrl. rewrite Hurl.
  assert (Js.truthy channel = true) as Hc.
  { apply (filtered_parts_truthy _ (Js.split "/" pathname)).
    rewrite Hparts. simpl. auto. }
  assert (Js.truthy msg = true) as Hm.
  { apply (filtered_parts_truthy _ (Js.split "/" pathname)).
    rewrite Hparts. simpl. auto. }
  cbv zeta. rewrite Hparts. simpl. rewrite Hc, Hm. reflexivity.
Qed.

Lemma parseMessageUrl_inv url p :
  parseMessageUrl url = Some p →
  ∃ pathname guild rest,
    url_pathname url = Some pathname
    ∧ List.filter Js.nonempty (Js.split "/" pathname)
      = "channels" :: guild :: channelId p :: messageId p :: rest.
Proof.
  unfold parseMessageUrl. destruct (url_pathname url) as [pathname|]; [|done].
  cbv zeta. intros Hp. exists pathname.
  destruct (List.filter Js.nonempty (Js.split "/" pathname))
    as [|a [|b [|c [|d rest]]]]; try discriminate.
  simpl in Hp. case_bool_decide as Ha; [|discriminate].
  destruct (Js.truthy c && Js.truthy d); [|discriminate].
  injection Hp as <-. injection Ha as ->. simpl. eauto.
Qed.

End LocatorFacts.

(** C4 (as the spec states it, refuted): the reference of the spec's own
    example is rejected by [parseMessageUrl], it does not resolve to
    container 111 and message 222; and with five path segments the ids
    returned are not the last two segments. *)
Lemma parseMessageUrl_spec_example_rejected :
  parseMessageUrl "https://platform/containers/111/222" = None
  ∧ parseMessageUrl "https://platform/containers/111/222"
    ≠ Some {| channelId := "111"; messageId := "222" |}
  ∧ parseMessageUrl "https://discord.com/channels/9/111/222/333"
    = Some {| channelId := "111"; messageId := "222" |}.
Proof. vm_compute. repeat split; discriminate. Qed.

(** C4 (amended): a reference resolves exactly when it parses as a URL whose
    non-empty path segments are at least four and start with [channels]; the
    ids returned are then the third and the fourth segment (the last two
    when there are exactly four).  [https://discord.com/channels/9/111/222]
    resolves to container 111 and message 222; [not-a-url] and
    [https://platform/containers/111/222] are invalid references. *)
Theorem parseMessageUrl_third_and_fourth :
  (∀ (api : UrlApi) (url : string) (p : ParsedUrl),
     parseMessageUrl url = Some p
     ↔ ∃ pathname guild rest,
         url_pathname url = Some pathname
         ∧ List.filter Js.nonempty (Js.split "/" pathname)
           = "channels" :: guild :: channelId p :: messageId p :: rest)
  ∧ parseMessageUrl "https://discord.com/channels/9/111/222"
    = Some {| channelId := "111"; messageId := "222" |}
  ∧ parseMessageUrl "not-a-url" = None
  ∧ parseMessageUrl "https://platform/containers/111/222" = None.
Proof.
  split; [|by vm_compute].
  intros api url p. split.
  - apply parseMessageUrl_inv.
  - intros (pathname & guild & rest & Hurl & Hparts). destruct p as [c m].
    by eapply parseMessageUrl_accepts.
Qed.

(** ** The durable registry *)

Lemma has_key_tracked url rows :
  has_key url rows = true ↔ url ∈ message_url <$> rows.
Proof.
  unfold has_key. rewrite existsb_exists, list_elem_of_fmap.
  split.
  - intros (row & Hin & Heq). apply bool_decide_eq_true in Heq.
    exists row. split; [done | by apply list_elem_of_In].
  - intros (row & -> & Hin). exists row.
    split; [by apply list_elem_of_In | by apply bool_decide_eq_true].
Qed.

Lemma tracked_insertMessage now url channel msg rows :
  ∀ u, u ∈ message_url <$> insertMessage now url channel msg rows
       ↔ u = url ∨ u ∈ message_url <$> rows.
Proof.
  intros u. unfold insertMessage.
  destruct (has_key url rows) eqn:Hkey.
  - apply has_key_tracked in Hkey. split; [tauto | by intros [-> | ?]].
  - rewrite fmap_app, elem_of_app. simpl. rewrite list_elem_of_singleton. tauto.
Qed.

Lemma NoDup_insertMessage now url channel msg rows :
  NoDup (message_url <$> rows) →
  NoDup (message_url <$> insertMessage now url channel msg rows).
Proof.
  intros Hnd. unfold insertMessage.
  destruct (has_key url rows) eqn:Hkey; [done |].
  rewrite fmap_app. apply NoDup_app. split; [done |].
  split; [| apply NoDup_singleton].
  intros u Hu Hu'. simpl in Hu'. apply list_elem_of_singleton in Hu' as ->.
  apply has_key_tracked in Hu. congruence.
Qed.

Lemma tracked_deleteMessage url rows :
  ∀ u, u ∈ message_url <$> deleteMessage url rows
       ↔ u ≠ url ∧ u ∈ message_url <$> rows.
Proof.
  intros u. unfold deleteMessage. rewrite !list_elem_of_fmap. split.
  - intros (row & -> & Hin). apply list_elem_of_In, filter_In in Hin as [Hin Hne].
    apply negb_true_iff, bool_decide_eq_false in Hne.
    split; [done |]. exists row. split; [done | by apply list_elem_of_In].
  - intros (Hne & row & -> & Hin). exists row. split; [done |].
    apply list_elem_of_In, filter_In. split; [by apply list_elem_of_In |].
    by apply negb_true_iff, bool_decide_eq_false.
Qed.

Lemma NoDup_deleteMessage url rows :
  NoDup (message_url <$> rows) →
  NoDup (message_url <$> deleteMessage url rows).
Proof.
  unfold deleteMessage. induction rows as [|row rows IH]; [done |].
  simpl. rewrite NoDup_cons. intros [Hnotin Hnd].
  destruct (negb _); [| by apply IH].
  simpl. apply NoDup_cons. split; [| by apply IH].
  intros Hin. apply Hnotin.
  apply (tracked_deleteMessage url rows) in Hin. tauto.
Qed.

Lemma deleteMessage_absent url rows :
  url ∉ message_url <$> rows → deleteMessage url rows = rows.
Proof.
  unfold deleteMessage. induction rows as [|row rows IH]; [done |].
  simpl. rewrite not_elem_of_cons. intros [Hne Hnotin].
  rewrite bool_decide_eq_false_2 by congruence. simpl. by rewrite IH.
Qed.

(** ** The scheduler keeps its two structures in step *)

Lemma consistent_initial : consistent initial.
Proof.
  split; simpl.
  - intros url handle. by rewrite lookup_empty.
  - intros handle t. by rewrite lookup_empty.
  - intros handle [t Ht]. by rewrite lookup_empty in Ht.
  - apply NoDup_nil_2.
Qed.

Lemma consistent_with_rows rows st :
  consistent st → NoDup (message_url <$> rows) → consistent (with_rows rows st).
Proof. intros [Ha Ho Hb Hk] Hnd. by split. Qed.

Lemma consistent_db_close st : consistent st → consistent (db_close st).
Proof. intros [Ha Ho Hb Hk]. by split. Qed.

Lemma consistent_setInterval url msg st :
  consistent st → cleaningTasks st !! url = None →
  consistent (setInterval url msg st).
Proof.
  intros [Ha Ho Hb Hk] Hfree. split; simpl; [| | | done].
  - intros url' handle. rewrite lookup_insert. case_decide as Hu.
    + intros [= <-]. subst url'. rewrite lookup_insert_eq. eauto.
    + intros Hl. destruct (Ha _ _ Hl) as (t & Ht & Hurl).
      assert (handle < next_timer st) by (apply Hb; eauto).
      rewrite lookup_insert_ne by lia. eauto.
  - intros handle t. rewrite lookup_insert. case_decide as Hh.
    + intros [= <-]. subst handle. simpl. by rewrite lookup_insert_eq.
    + intros Ht. pose proof (Ho _ _ Ht) as Hl.
      rewrite lookup_insert_ne; [done | congruence].
  - intros handle. rewrite lookup_insert. case_decide as Hh; [lia |].
    intros Hs. apply Hb in Hs. lia.
Qed.

Lemma consistent_stopCleaning url st :
  consistent st → consistent (stopCleaning url st).2.
Proof.
  intros Hc. unfold stopCleaning.
  destruct (cleaningTasks st !! url) as [handle|] eqn:Hurl; [| done].
  destruct Hc as [Ha Ho Hb Hk]. split; simpl; [| | | done].
  - intros url' handle'. rewrite lookup_delete. case_decide as Hu; [done |].
    intros Hl. destruct (Ha _ _ Hl) as (t & Ht & Htu).
    exists t. split; [| done].
    rewrite lookup_delete_ne; [done |].
    intros <-. destruct (Ha _ _ Hurl) as (t' & Ht' & Htu'). congruence.
  - intros handle' t. rewrite lookup_delete. case_decide as Hh; [done |].
    intros Ht. pose proof (Ho _ _ Ht) as Hl.
    rewrite lookup_delete_ne; [done |]. congruence.
  - intros handle'. rewrite lookup_delete. case_decide as Hh.
    + by intros [? ?].
    + apply Hb.
Qed.

Lemma startCleaning_state gw url channel msg st :
  (startCleaning gw url channel msg st).2 = st
  ∨ ∃ m, cleaningTasks st !! url = None
         ∧ (startCleaning gw url channel msg st).2 = setInterval url m st.
Proof.
  unfold startCleaning.
  destruct (channels_fetch gw channel) as [c | |]; [| by left ..].
  destruct (unsupported (chan_type c)); [by left |].
  destruct (messages_fetch gw c msg) as [m|]; [| by left].
  destruct (cleaningTasks st !! url) eqn:Hl; [by left |].
  right. eauto.
Qed.

Lemma consistent_startCleaning gw url channel msg st :
  consistent st → consistent (startCleaning gw url channel msg st).2.
Proof.
  intros Hc. destruct (startCleaning_state gw url channel msg st)
    as [-> | (m & Hfree & ->)]; [done |].
  by apply consistent_setInterval.
Qed.

Lemma consistent_cleaning : consistent Fixture.cleaning.
Proof.
  apply consistent_with_rows.
  - apply consistent_setInterval; [apply consistent_initial | done].
  - apply NoDup_singleton.
Qed.


(** ** [startCleaning], outcome by outcome *)

Lemma startCleaning_starts gw url channel m st c msg :
  channels_fetch gw channel = Resolved c →
  unsupported (chan_type c) = None →
  messages_fetch gw c m = Some msg →
  cleaningTasks st !! url = None →
  startCleaning gw url channel m st
  = ({| success := true; error := None; message := Some msg |},
     setInterval url msg st).
Proof. intros Hc Hu Hm Hl. unfold startCleaning. by rewrite Hc, Hu, Hm, Hl. Qed.

Lemma startCleaning_success gw url channel m st :
  success (startCleaning gw url channel m st).1 = true →
  ∃ c msg,
    channels_fetch gw channel = Resolved c
    ∧ unsupported (chan_type c) = None
    ∧ messages_fetch gw c m = Some msg
    ∧ cleaningTasks st !! url = None.
Proof.
  unfold startCleaning.
  destruct (channels_fetch gw channel) as [c | |]; [| done ..].
  destruct (unsupported (chan_type c)) eqn:Hu; [done |].
  destruct (messages_fetch gw c m) as [msg|] eqn:Hm; [| done].
  destruct (cleaningTasks st !! url) eqn:Hl; [done |].
  intros _. eauto 10.
Qed.

Lemma startCleaning_already gw url channel m st c msg :
  channels_fetch gw channel = Resolved c →
  unsupported (chan_type c) = None →
  messages_fetch gw c m = Some msg →
  is_Some (cleaningTasks st !! url) →
  startCleaning gw url channel m st = (failure already_cleaning, st).
Proof.
  intros Hc Hu Hm [handle Hl]. unfold startCleaning.
  by rewrite Hc, Hu, Hm, Hl.
Qed.

Lemma startCleaning_failure_state gw url channel m st :
  success (startCleaning gw url channel m st).1 = false →
  (startCleaning gw url channel m st).2 = st.
Proof.
  unfold startCleaning.
  destruct (channels_fetch gw channel) as [c | |]; [| done ..].
  destruct (unsupported (chan_type c)); [done |].
  destruct (messages_fetch gw c m); [| done].
  by destruct (cleaningTasks st !! url).
Qed.

Lemma unsupported_text_not_already t text :
  unsupported t = Some text → text ≠ already_cleaning.
Proof. destruct t; intros [= <-]; discriminate. Qed.

(** C10: with an ActiveTask already registered for the reference,
    [startCleaning] still asks the gateway first.  When the channel fetch
    gives nothing the result is "Channel not found", when the channel is
    there and the message fetch fails it is "Message not found ...", and
    "Already cleaning this message" comes back exactly when channel and
    message both resolved.  (A rejected channel fetch returns the text of the
    rejection, taken to differ from the program's own "Already cleaning"
    text.) *)
Theorem startCleaning_resolves_before_duplicate_check
    (gw : Gateway) (url channel m : string) (st : State) :
  is_Some (cleaningTasks st !! url) →
  channels_fetch gw channel ≠ Rejected already_cleaning →
  let r := startCleaning gw url channel m st in
  (channels_fetch gw channel = Null → r = (failure channel_not_found, st))
  ∧ (∀ c, channels_fetch gw channel = Resolved c →
          unsupported (chan_type c) = None →
          messages_fetch gw c m = None →
          r = (failure message_not_found, st))
  ∧ (error r.1 = Some already_cleaning
     ↔ ∃ c msg, channels_fetch gw channel = Resolved c
                ∧ unsupported (chan_type c) = None
                ∧ messages_fetch gw c m = Some msg).
Proof.
  intros Htask Hrej r. subst r. split; [| split].
  - intros Hc. unfold startCleaning. by rewrite Hc.
  - intros c Hc Hu Hm. unfold startCleaning. by rewrite Hc, Hu, Hm.
  - split.
    + unfold startCleaning.
      destruct (channels_fetch gw channel) as [c | | reason] eqn:Hc.
      * destruct (unsupported (chan_type c)) as [text|] eqn:Hu.
        { simpl. intros [= Ht]. by apply unsupported_text_not_already in Hu. }
        destruct (messages_fetch gw c m) as [msg|] eqn:Hm; [eauto 10 |].
        simpl. discriminate.
      * simpl. discriminate.
      * simpl. intros [= ->]. done.
    + intros (c & msg & Hc & Hu & Hm).
      by rewrite (startCleaning_already _ _ _ _ _ c msg).
Qed.

Lemma startCleaning_resolves_before_duplicate_check_witness :
  is_Some (cleaningTasks Fixture.cleaning !! Fixture.url)
  ∧ error (startCleaning Fixture.discord Fixture.url "111" "222"
             Fixture.cleaning).1 = Some already_cleaning
  ∧ startCleaning Fixture.discord Fixture.url "111" "404" Fixture.cleaning
    = (failure message_not_found, Fixture.cleaning)
  ∧ startCleaning Fixture.discord Fixture.url "404" "222" Fixture.cleaning
    = (failure channel_not_found, Fixture.cleaning).
Proof.
  assert (is_Some (cleaningTasks Fixture.cleaning !! Fixture.url)) as Htask.
  { vm_compute. eauto. }
  split; [exact Htask |].
  pose proof (startCleaning_resolves_before_duplicate_check
                Fixture.discord Fixture.url "111" "222" Fixture.cleaning
                Htask ltac:(discriminate)) as (_ & _ & Hboth).
  pose proof (startCleaning_resolves_before_duplicate_check
                Fixture.discord Fixture.url "111" "404" Fixture.cleaning
                Htask ltac:(discriminate)) as (_ & Hmessage & _).
  pose proof (startCleaning_resolves_before_duplicate_check
                Fixture.discord Fixture.url "404" "222" Fixture.cleaning
                Htask ltac:(discriminate)) as (Hchannel & _ & _).
  split; [| split].
  - apply Hboth. exists Fixture.channel, Fixture.msg. by vm_compute.
  - by apply (Hmessage Fixture.channel).
  - by apply Hchannel.
Defined.

(** ** The enable command, one reference at a time *)

Lemma snoc_neq {A} (l : list A) (x : A) : (l ++ [x])%list ≠ l.
Proof.
  intros Heq. apply (f_equal (@List.length A)) in Heq.
  rewrite length_app in Heq. simpl in Heq. lia.
Qed.

Lemma tasks_of_none url st :
  consistent st → cleaningTasks st !! url = None → tasks_of url st = ∅.
Proof.
  intros Hc Hfree. apply map_empty. intros handle.
  apply map_lookup_filter_None. right. intros t Ht Hurl. simpl in Hurl.
  apply (timers_owned _ Hc) in Ht. congruence.
Qed.

Lemma tasks_of_setInterval url msg st :
  consistent st → cleaningTasks st !! url = None →
  tasks_of url (setInterval url msg st)
  = {[ next_timer st := {| timer_url := url; timer_message := msg |} ]}.
Proof.
  intros Hc Hfree. unfold tasks_of. simpl.
  rewrite map_filter_insert_True by done.
  fold (tasks_of url st). by rewrite tasks_of_none.
Qed.

Lemma tasks_of_running url handle st :
  consistent st → cleaningTasks st !! url = Some handle →
  ∃ msg, tasks_of url st
         = {[ handle := {| timer_url := url; timer_message := msg |} ]}.
Proof.
  intros Hc Hl. destruct (tasks_alive _ Hc _ _ Hl) as ([u msg] & Ht & Hu).
  simpl in Hu. subst u. exists msg. apply map_eq. intros h.
  destruct (decide (h = handle)) as [-> | Hne].
  - rewrite lookup_singleton_eq. by apply map_lookup_filter_Some.
  - rewrite lookup_singleton_ne by done.
    apply map_lookup_filter_None. right. intros t Ht' Hurl. simpl in Hurl.
    apply (timers_owned _ Hc) in Ht'. congruence.
Qed.

Lemma stopCleaning_setInterval url msg st :
  consistent st → cleaningTasks st !! url = None →
  (stopCleaning url (setInterval url msg st)).2
  = {| cleaningTasks := cleaningTasks st; timers := timers st;
       next_timer := S (next_timer st);
       tracked_messages := tracked_messages st; db_open := db_open st |}.
Proof.
  intros Hc Hfree. unfold stopCleaning. simpl. rewrite lookup_insert_eq. simpl.
  f_equal.
  - rewrite delete_insert_eq. by apply delete_id.
  - rewrite delete_insert_eq. apply delete_id.
    destruct (timers st !! next_timer st) eqn:Ht; [| done].
    assert (next_timer st < next_timer st) by (apply (handles_below _ Hc); eauto).
    lia.
Qed.

Section EnableFacts.
Context `{UrlApi}.

Lemma enable_body_started w url acc st :
  (EnableCmd.body w url acc st).1 = EnableCmd.push_started url acc →
  ∃ p c msg,
    parseMessageUrl url = Some p
    ∧ channels_fetch (gateway w) (channelId p) = Resolved c
    ∧ unsupported (chan_type c) = None
    ∧ messages_fetch (gateway w) c (messageId p) = Some msg
    ∧ cleaningTasks st !! url = None
    ∧ db_throws w = None
    ∧ (EnableCmd.body w url acc st).2
      = with_rows
          (insertMessage (timestamp w) url (channelId p) (messageId p)
                         (tracked_messages st))
          (setInterval url msg st).
Proof.
  unfold EnableCmd.body.
  destruct (parseMessageUrl url) as [p|].
  2:{ simpl. intros [= Hs]. symmetry in Hs. by apply snoc_neq in Hs. }
  destruct (startCleaning (gateway w) url (channelId p) (messageId p) st)
    as [result st1] eqn:Hstart.
  destruct (success result) eqn:Hok.
  - pose proof (startCleaning_success (gateway w) url (channelId p)
                  (messageId p) st) as Hinv.
    rewrite Hstart in Hinv. destruct (Hinv Hok) as (c & msg & Hc & Hu & Hm & Hl).
    rewrite (startCleaning_starts _ _ _ _ _ c msg Hc Hu Hm Hl) in Hstart.
    injection Hstart as <- <-.
    destruct (db_throws w) as [dbError|].
    + simpl. intros [= Hs]. symmetry in Hs. by apply snoc_neq in Hs.
    + intros _. exists p, c, msg. eauto 10.
  - case_bool_decide; simpl; intros [= Hs]; symmetry in Hs;
      by apply snoc_neq in Hs.
Qed.

Lemma enable_body_already w url acc st p c msg :
  parseMessageUrl url = Some p →
  channels_fetch (gateway w) (channelId p) = Resolved c →
  unsupported (chan_type c) = None →
  messages_fetch (gateway w) c (messageId p) = Some msg →
  is_Some (cleaningTasks st !! url) →
  EnableCmd.body w url acc st = (EnableCmd.push_alreadyRunning url acc, st).
Proof.
  intros Hp Hc Hu Hm Htask. unfold EnableCmd.body. rewrite Hp.
  rewrite (startCleaning_already _ _ _ _ _ c msg) by done.
  simpl. rewrite ?bool_decide_eq_true_2 by done. done.
Qed.

(** C6: for a reference that parses and whose channel and message resolve,
    [startCleaning] called twice in a row returns "Already cleaning this
    message" the second time and leaves exactly one interval alive for the
    reference, the one in the task map.  Through the command, when the
    insert of the first call does not throw: the first call reports the
    reference as started (or as already running), the second as already
    running and changes nothing, and exactly one interval is alive for it. *)
Theorem enable_twice_already_running
    (w1 w2 : Env) (url : string) (acc1 acc2 : EnableCmd.Lists) (st : State)
    (p : ParsedUrl) (c : Channel) (msg : Message) :
  consistent st →
  parseMessageUrl url = Some p →
  channels_fetch (gateway w1) (channelId p) = Resolved c →
  unsupported (chan_type c) = None →
  messages_fetch (gateway w1) c (messageId p) = Some msg →
  gateway w2 = gateway w1 →
  let s1 := startCleaning (gateway w1) url (channelId p) (messageId p) st in
  let s2 := startCleaning (gateway w2) url (channelId p) (messageId p) s1.2 in
  s2 = (failure already_cleaning, s1.2)
  ∧ (∃ handle t,
       tasks_of url s1.2 = {[ handle := t ]}
       ∧ cleaningTasks s1.2 !! url = Some handle)
  ∧ (db_throws w1 = None →
     let r1 := EnableCmd.body w1 url acc1 st in
     (r1.1 = EnableCmd.push_started url acc1
      ∨ r1.1 = EnableCmd.push_alreadyRunning url acc1)
     ∧ EnableCmd.body w2 url acc2 r1.2
       = (EnableCmd.push_alreadyRunning url acc2, r1.2)
     ∧ ∃ handle t,
         tasks_of url r1.2 = {[ handle := t ]}
         ∧ cleaningTasks r1.2 !! url = Some handle
         ∧ size (tasks_of url r1.2) = 1).
Proof.
  intros Hc Hp Hch Hu Hm Hgw s1 s2. subst s1 s2.
  destruct (cleaningTasks st !! url) as [handle|] eqn:Hl.
  - assert (is_Some (cleaningTasks st !! url)) as Hsome by eauto.
    destruct (tasks_of_running url handle st Hc Hl) as (m & Ht).
    rewrite (startCleaning_already _ _ _ _ _ c msg Hch Hu Hm Hsome).
    cbn [snd]. split.
    { apply (startCleaning_already _ _ _ _ _ c msg); by rewrite ?Hgw. }
    split; [eauto |].
    intros Hdb. cbv zeta.
    rewrite (enable_body_already w1 url acc1 st p c msg) by done.
    cbn [fst snd]. split; [by right |]. split.
    { apply (enable_body_already _ _ _ _ p c msg); by rewrite ?Hgw. }
    exists handle, {| timer_url := url; timer_message := m |}.
    rewrite Ht. split; [done |]. split; [done | apply map_size_singleton].
  - rewrite (startCleaning_starts _ _ _ _ _ c msg Hch Hu Hm Hl).
    cbn [snd].
    assert (is_Some (cleaningTasks (setInterval url msg st) !! url)) as Hsome.
    { simpl. rewrite lookup_insert_eq. eauto. }
    pose proof (tasks_of_setInterval url msg st Hc Hl) as Ht.
    split.
    { apply (startCleaning_already _ _ _ _ _ c msg); by rewrite ?Hgw. }
    split.
    { eexists _, _. split; [exact Ht |]. simpl. by rewrite lookup_insert_eq. }
    intros Hdb. cbv zeta.
    assert (EnableCmd.body w1 url acc1 st
            = (EnableCmd.push_started url acc1,
               with_rows
                 (insertMessage (timestamp w1) url (channelId p) (messageId p)
                    (tracked_messages st))
                 (setInterval url msg st))) as ->.
    { unfold EnableCmd.body. rewrite Hp.
      rewrite (startCleaning_starts _ _ _ _ _ c msg Hch Hu Hm Hl).
      cbn [fst snd success]. by rewrite Hdb. }
    cbn [fst snd]. split; [by left |]. split.
    { apply (enable_body_already _ _ _ _ p c msg); by rewrite ?Hgw. }
    eexists _, _. split; [exact Ht |]. split.
    + simpl. by rewrite lookup_insert_eq.
    + change (size (tasks_of url (setInterval url msg st)) = 1).
      rewrite Ht. apply map_size_singleton.
Qed.

(** C7: when the channel of a reference resolves to a channel the bot can
    clean in and the message fetch fails, [startCleaning] returns the
    "Message not found" failure, the command reports it among the errors,
    and the state is untouched: no interval, no entry in the task map, no
    row. *)
Theorem enable_message_not_found
    (w : Env) (url : string) (acc : EnableCmd.Lists) (st : State)
    (p : ParsedUrl) (c : Channel) :
  parseMessageUrl url = Some p →
  channels_fetch (gateway w) (channelId p) = Resolved c →
  unsupported (chan_type c) = None →
  messages_fetch (gateway w) c (messageId p) = None →
  startCleaning (gateway w) url (channelId p) (messageId p) st
  = (failure message_not_found, st)
  ∧ EnableCmd.body w url acc st
    = (EnableCmd.push_errors (url +:+ ": " +:+ message_not_found) acc, st).
Proof.
  intros Hp Hc Hu Hm.
  assert (startCleaning (gateway w) url (channelId p) (messageId p) st
          = (failure message_not_found, st)) as Hstart.
  { unfold startCleaning. by rewrite Hc, Hu, Hm. }
  split; [done |].
  unfold EnableCmd.body. rewrite Hp, Hstart. simpl.
  rewrite ?bool_decide_eq_false_2 by done. done.
Qed.

(** C5: when [startCleaning] succeeded for a reference and the insert
    throws, the command reports a database error for it and cancels what
    it had just started: the task map, the live intervals and the table
    are what they were before the command, so every task is still backed
    by a row if it was before. *)
Theorem enable_insert_failure_rolls_back
    (w : Env) (url : string) (acc : EnableCmd.Lists) (st : State)
    (p : ParsedUrl) (dbError : string) :
  consistent st →
  parseMessageUrl url = Some p →
  success (startCleaning (gateway w) url (channelId p) (messageId p) st).1
  = true →
  db_throws w = Some dbError →
  let st1 := (startCleaning (gateway w) url (channelId p) (messageId p) st).2 in
  let st2 := (EnableCmd.body w url acc st).2 in
  is_Some (cleaningTasks st1 !! url)
  ∧ (EnableCmd.body w url acc st).1
    = EnableCmd.push_errors (url +:+ ": Database error - " +:+ dbError) acc
  ∧ cleaningTasks st2 !! url = None
  ∧ tasks_of url st2 = ∅
  ∧ cleaningTasks st2 = cleaningTasks st
  ∧ timers st2 = timers st
  ∧ tracked_messages st2 = tracked_messages st
  ∧ (backed st → backed st2).
Proof.
  intros Hc Hp Hok Hdb st1 st2. subst st1 st2.
  destruct (startCleaning_success _ _ _ _ _ Hok)
    as (c & msg & Hch & Hu & Hm & Hfree).
  unfold EnableCmd.body. rewrite Hp.
  rewrite (startCleaning_starts _ _ _ _ _ c msg Hch Hu Hm Hfree).
  cbn [fst snd success]. rewrite Hdb.
  rewrite (stopCleaning_setInterval url msg st Hc Hfree). cbn [fst snd].
  split; [simpl; rewrite lookup_insert_eq; eauto |].
  split; [done |]. split; [done |].
  split.
  { apply map_empty. intros handle.
    apply map_lookup_filter_None. right. intros t Ht Hurl. simpl in *.
    apply (timers_owned _ Hc) in Ht. congruence. }
  done.
Qed.

End EnableFacts.

Lemma enable_twice_already_running_witness :
  let r1 := EnableCmd.body Fixture.calm Fixture.url EnableCmd.nothing initial in
  r1.1 = EnableCmd.push_started Fixture.url EnableCmd.nothing
  ∧ EnableCmd.body Fixture.calm Fixture.url EnableCmd.nothing r1.2
    = (EnableCmd.push_alreadyRunning Fixture.url EnableCmd.nothing, r1.2)
  ∧ size (tasks_of Fixture.url r1.2) = 1.
Proof.
  destruct (enable_twice_already_running Fixture.calm Fixture.calm Fixture.url
              EnableCmd.nothing EnableCmd.nothing initial
              {| channelId := "111"; messageId := "222" |}
              Fixture.channel Fixture.msg
              consistent_initial ltac:(by vm_compute) eq_refl eq_refl eq_refl
              eq_refl)
    as (_ & _ & Hcmd).
  destruct (Hcmd eq_refl) as (_ & Hsecond & handle & t & _ & _ & Hone).
  cbv zeta. split; [by vm_compute |]. split; [exact Hsecond | exact Hone].
Defined.

Lemma enable_message_not_found_witness :
  startCleaning Fixture.discord Fixture.other "111" "333" initial
  = (failure message_not_found, initial)
  ∧ EnableCmd.body Fixture.calm Fixture.other EnableCmd.nothing initial
    = (EnableCmd.push_errors (Fixture.other +:+ ": " +:+ message_not_found)
         EnableCmd.nothing, initial).
Proof.
  apply (enable_message_not_found Fixture.calm Fixture.other EnableCmd.nothing
           initial {| channelId := "111"; messageId := "333" |}
           Fixture.channel); by vm_compute.
Defined.

Lemma enable_insert_failure_rolls_back_witness :
  let st2 :=
    (EnableCmd.body Fixture.disk_full Fixture.url EnableCmd.nothing initial).2 in
  (EnableCmd.body Fixture.disk_full Fixture.url EnableCmd.nothing initial).1
  = EnableCmd.push_errors
      (Fixture.url +:+ ": Database error - "
       +:+ "SqliteError: database or disk is full") EnableCmd.nothing
  ∧ cleaningTasks st2 = ∅ ∧ timers st2 = ∅ ∧ tracked_messages st2 = [].
Proof.
  destruct (enable_insert_failure_rolls_back Fixture.disk_full Fixture.url
              EnableCmd.nothing initial
              {| channelId := "111"; messageId := "222" |}
              "SqliteError: database or disk is full"
              consistent_initial ltac:(by vm_compute) ltac:(by vm_compute)
              ltac:(reflexivity))
    as (_ & Hreply & _ & _ & Htasks & Htimers & Hrows & _).
  cbv zeta. by rewrite Hreply, Htasks, Htimers, Hrows.
Defined.

(** ** Stopping *)

Lemma stopCleaning_tasks url st :
  cleaningTasks (stopCleaning url st).2 = delete url (cleaningTasks st).
Proof.
  unfold stopCleaning. destruct (cleaningTasks st !! url) eqn:Hl; [done |].
  simpl. symmetry. by apply delete_id.
Qed.

Lemma stopCleaning_rows url st :
  tracked_messages (stopCleaning url st).2 = tracked_messages st
  ∧ db_open (stopCleaning url st).2 = db_open st.
Proof. unfold stopCleaning. by destruct (cleaningTasks st !! url). Qed.

Lemma stopEach_rows urls st :
  tracked_messages (stopEach urls st) = tracked_messages st
  ∧ db_open (stopEach urls st) = db_open st.
Proof.
  revert st. induction urls as [|url urls IH]; intros st; [done |].
  unfold stopEach in *. simpl. destruct (IH (stopCleaning url st).2) as [-> ->].
  apply stopCleaning_rows.
Qed.

Lemma stopEach_tasks urls st url :
  cleaningTasks (stopEach urls st) !! url
  = if decide (url ∈ urls) then None else cleaningTasks st !! url.
Proof.
  revert st. induction urls as [|u urls IH]; intros st.
  - destruct (decide (url ∈ [])) as [Hin | _]; [| done].
    by apply elem_of_nil in Hin.
  - change (stopEach (u :: urls) st) with (stopEach urls (stopCleaning u st).2).
    rewrite IH, stopCleaning_tasks.
    destruct (decide (url ∈ urls)) as [Hin | Hnotin];
      destruct (decide (url ∈ u :: urls)) as [Hin' | Hnotin']; try done.
    + exfalso. apply Hnotin'. by apply list_elem_of_further.
    + apply elem_of_cons in Hin' as [-> | Hin']; [| done].
      apply lookup_delete_eq.
    + apply lookup_delete_ne. intros ->. apply Hnotin', list_elem_of_here.
Qed.

Lemma consistent_stopEach urls st :
  consistent st → consistent (stopEach urls st).
Proof.
  revert st. induction urls as [|u urls IH]; intros st Hc; [done |].
  unfold stopEach in *. simpl. by apply IH, consistent_stopCleaning.
Qed.

Lemma elem_of_activeUrls url st :
  url ∈ activeUrls st ↔ is_Some (cleaningTasks st !! url).
Proof.
  unfold activeUrls. rewrite list_elem_of_fmap. split.
  - intros ([u handle] & -> & Hin). apply elem_of_map_to_list in Hin. eauto.
  - intros [handle Hl]. exists (url, handle).
    split; [done | by apply elem_of_map_to_list].
Qed.

Lemma activeUrls_nil st : activeUrls st = [] ↔ cleaningTasks st = ∅.
Proof.
  unfold activeUrls. rewrite <- map_to_list_empty_iff.
  destruct (map_to_list (cleaningTasks st)); [done |]. split; discriminate.
Qed.

(** Stopping every key of the task map leaves no task and no interval. *)
Lemma stopEach_all st :
  consistent st →
  cleaningTasks (stopEach (activeUrls st) st) = ∅
  ∧ timers (stopEach (activeUrls st) st) = ∅.
Proof.
  intros Hc.
  assert (cleaningTasks (stopEach (activeUrls st) st) = ∅) as Hempty.
  { apply map_empty. intros url. rewrite stopEach_tasks.
    destruct (decide (url ∈ activeUrls st)) as [Hin | Hnotin]; [done |].
    rewrite elem_of_activeUrls in Hnotin.
    by apply eq_None_not_Some. }
  split; [done |].
  apply map_empty. intros handle.
  destruct (timers (stopEach (activeUrls st) st) !! handle) as [t|] eqn:Ht;
    [| done].
  apply (timers_owned _ (consistent_stopEach _ _ Hc)) in Ht.
  rewrite Hempty, lookup_empty in Ht. discriminate.
Qed.

(** C3 (as the spec states it, refuted): with a row in the table and no task
    running (the state after a restart whose restore has not run), the
    command stops at its "No messages are currently being cleaned." reply and
    the row stays. *)
Lemma disableAll_keeps_rows_without_tasks :
  cleaningTasks Fixture.restarted = ∅
  ∧ DisableAllCmd.handler Fixture.calm Fixture.restarted
    = (DisableAllCmd.NothingCleaned, Fixture.restarted)
  ∧ tracked (DisableAllCmd.handler Fixture.calm Fixture.restarted).2
    = [Fixture.url].
Proof. by vm_compute. Qed.

(** C3 (amended): when at least one task is running and the clear statement
    does not throw, the command leaves no task, no live interval and no row,
    and a second invocation right after it changes nothing; when no task is
    running the command changes nothing at all, whatever the table holds. *)
Theorem disableAll_clears_when_tasks_run (w : Env) (st : State) :
  consistent st →
  db_throws w = None →
  let st1 := (DisableAllCmd.handler w st).2 in
  (cleaningTasks st ≠ ∅ →
     (DisableAllCmd.handler w st).1
     = DisableAllCmd.StoppedAll (size (cleaningTasks st))
     ∧ cleaningTasks st1 = ∅ ∧ timers st1 = ∅ ∧ tracked_messages st1 = []
     ∧ ∀ w', DisableAllCmd.handler w' st1 = (DisableAllCmd.NothingCleaned, st1))
  ∧ (cleaningTasks st = ∅ →
     DisableAllCmd.handler w st = (DisableAllCmd.NothingCleaned, st)).
Proof.
  intros Hc Hdb st1. subst st1. unfold DisableAllCmd.handler. split.
  - intros Hne.
    destruct (activeUrls st) as [|u urls] eqn:Hurls.
    { by apply activeUrls_nil in Hurls. }
    rewrite <- Hurls. replace (length (activeUrls st) =? 0) with false
      by (by rewrite Hurls).
    rewrite Hdb. cbn [fst snd].
    destruct (stopEach_all st Hc) as [Htasks Htimers].
    split. { unfold activeUrls. by rewrite length_fmap, length_map_to_list. }
    split; [done |]. split; [done |]. split; [done |].
    intros w'.
    assert (activeUrls
              (with_rows (clearAllMessages
                            (tracked_messages (stopEach (activeUrls st) st)))
                 (stopEach (activeUrls st) st)) = []) as ->.
    { by apply activeUrls_nil. }
    done.
  - intros Hempty. apply activeUrls_nil in Hempty. by rewrite Hempty.
Qed.

Lemma disableAll_clears_when_tasks_run_witness :
  let st1 := (DisableAllCmd.handler Fixture.calm Fixture.cleaning).2 in
  cleaningTasks Fixture.cleaning ≠ ∅
  ∧ cleaningTasks st1 = ∅ ∧ timers st1 = ∅ ∧ tracked_messages st1 = []
  ∧ DisableAllCmd.handler Fixture.calm st1 = (DisableAllCmd.NothingCleaned, st1).
Proof.
  assert (cleaningTasks Fixture.cleaning ≠ ∅) as Hne by (by vm_compute).
  destruct (disableAll_clears_when_tasks_run Fixture.calm Fixture.cleaning
              consistent_cleaning eq_refl) as [Hrun _].
  destruct (Hrun Hne) as (_ & Htasks & Htimers & Hrows & Hagain).
  cbv zeta. auto.
Defined.

(** C9: on SIGINT and on SIGTERM alike, every task is cancelled (the task
    map and the set of live intervals end up empty), the connection is
    closed, and the table holds exactly the rows it held before. *)
Theorem shutdown_keeps_registry (st : State) :
  consistent st →
  ∀ st', st' = onSIGINT st ∨ st' = onSIGTERM st →
    cleaningTasks st' = ∅ ∧ timers st' = ∅ ∧ db_open st' = false
    ∧ tracked_messages st' = tracked_messages st.
Proof.
  intros Hc st' Hst'.
  assert (st' = db_close (stopEach (activeUrls st) st)) as ->
    by (by destruct Hst').
  destruct (stopEach_all st Hc) as [Htasks Htimers].
  destruct (stopEach_rows (activeUrls st) st) as [Hrows _].
  by simpl.
Qed.

Lemma shutdown_keeps_registry_witness :
  cleaningTasks (onSIGTERM Fixture.cleaning) = ∅
  ∧ timers (onSIGTERM Fixture.cleaning) = ∅
  ∧ db_open (onSIGTERM Fixture.cleaning) = false
  ∧ tracked_messages (onSIGTERM Fixture.cleaning) = [Fixture.row].
Proof.
  apply (shutdown_keeps_registry Fixture.cleaning consistent_cleaning).
  by right.
Defined.

(** ** The disable command, one reference at a time *)

(** C2 (as the spec states it, refuted): a reference with a row in the table
    and no running task (the state after a restart whose restore has not
    run) is reported as not running, and no delete is attempted: the row is
    still there. *)
Lemma disable_without_task_keeps_row :
  cleaningTasks Fixture.restarted !! Fixture.url = None
  ∧ DisableCmd.body Fixture.calm Fixture.url DisableCmd.nothing
      Fixture.restarted
    = (DisableCmd.push_notRunning Fixture.url DisableCmd.nothing,
       Fixture.restarted)
  ∧ tracked_messages Fixture.restarted = [Fixture.row].
Proof. by vm_compute. Qed.

Section DisableFacts.
Context `{UrlApi}.

(** C2 (amended): for a reference that parses, the command cancels and
    removes the task when one is running, and only then runs the delete
    statement; it reports the reference as stopped exactly when a task was
    running (also when the delete throws, the row then staying), and as not
    running otherwise, in which case nothing changes, a row included. *)
Theorem disable_stops_running_task
    (w : Env) (url : string) (acc : DisableCmd.Lists) (st : State) :
  consistent st →
  is_Some (parseMessageUrl url) →
  let r := DisableCmd.body w url acc st in
  (∀ handle, cleaningTasks st !! url = Some handle →
     r.1 = DisableCmd.push_stopped url acc
     ∧ cleaningTasks r.2 = delete url (cleaningTasks st)
     ∧ timers r.2 = delete handle (timers st)
     ∧ tasks_of url r.2 = ∅
     ∧ (db_throws w = None →
        tracked_messages r.2 = deleteMessage url (tracked_messages st)
        ∧ url ∉ tracked r.2)
     ∧ (is_Some (db_throws w) →
        tracked_messages r.2 = tracked_messages st))
  ∧ (cleaningTasks st !! url = None →
     r = (DisableCmd.push_notRunning url acc, st)).
Proof.
  intros Hc [p Hp] r. subst r. unfold DisableCmd.body. rewrite Hp. split.
  - intros handle Hl.
    pose proof (consistent_stopCleaning url st Hc) as Hc1.
    pose proof (stopCleaning_tasks url st) as Htasks.
    unfold stopCleaning in *. rewrite Hl in *. cbn [fst snd] in *.
    assert (∀ rows,
              tasks_of url
                (with_rows rows
                   {| cleaningTasks := delete url (cleaningTasks st);
                      timers := delete handle (timers st);
                      next_timer := next_timer st;
                      tracked_messages := tracked_messages st;
                      db_open := db_open st |}) = ∅) as Hnone.
    { intros rows. apply map_empty. intros h.
      apply map_lookup_filter_None. right. intros t Ht Hurl. simpl in *.
      apply (timers_owned _ Hc1) in Ht. simpl in Ht.
      rewrite Hurl, lookup_delete_eq in Ht. discriminate. }
    destruct (db_throws w) as [dbError|] eqn:Hdb; cbn [fst snd].
    + split; [done |]. split; [done |]. split; [done |].
      split; [apply (Hnone (tracked_messages st)) |].
      split; [done | done].
    + split; [done |]. split; [done |]. split; [done |].
      split; [apply Hnone |].
      split; [| by intros [? ?]].
      intros _. split; [done |]. unfold tracked. simpl.
      intros Hin. apply tracked_deleteMessage in Hin. tauto.
  - intros Hl. unfold stopCleaning. by rewrite Hl.
Qed.

End DisableFacts.

Lemma disable_stops_running_task_witness :
  let r := DisableCmd.body Fixture.calm Fixture.url DisableCmd.nothing
             Fixture.cleaning in
  r.1 = DisableCmd.push_stopped Fixture.url DisableCmd.nothing
  ∧ cleaningTasks r.2 !! Fixture.url = None
  ∧ tasks_of Fixture.url r.2 = ∅
  ∧ Fixture.url ∉ tracked r.2.
Proof.
  destruct (disable_stops_running_task Fixture.calm Fixture.url
              DisableCmd.nothing Fixture.cleaning consistent_cleaning
              ltac:(by vm_compute; eauto)) as [Hrunning _].
  destruct (Hrunning 0 ltac:(by vm_compute))
    as (Hreply & Htasks & _ & Hnone & Hrow & _).
  cbv zeta. split; [done |]. split; [| split; [done | by apply Hrow]].
  rewrite Htasks. apply lookup_delete_eq.
Defined.

(** ** What the events that are not stops do to running tasks *)

(** Every task of [st] is still in the map of [st'], under the same handle,
    and that interval is as alive as it was. *)
Definition keeps_tasks (st st' : State) : Prop :=
  ∀ url handle,
    cleaningTasks st !! url = Some handle →
    cleaningTasks st' !! url = Some handle
    ∧ timers st' !! handle = timers st !! handle.

Lemma keeps_tasks_refl st : keeps_tasks st st.
Proof. by intros url handle Hl. Qed.

Lemma keeps_tasks_trans st1 st2 st3 :
  keeps_tasks st1 st2 → keeps_tasks st2 st3 → keeps_tasks st1 st3.
Proof.
  intros H12 H23 url handle Hl. destruct (H12 _ _ Hl) as [Hl2 Ht2].
  destruct (H23 _ _ Hl2) as [Hl3 Ht3]. split; [done | congruence].
Qed.

Lemma keeps_tasks_setInterval url msg st :
  consistent st → cleaningTasks st !! url = None →
  keeps_tasks st (setInterval url msg st).
Proof.
  intros Hc Hfree url' handle Hl. simpl.
  destruct (tasks_alive _ Hc _ _ Hl) as (t & Ht & _).
  assert (handle < next_timer st) by (apply (handles_below _ Hc); eauto).
  rewrite lookup_insert_ne by congruence.
  by rewrite lookup_insert_ne by lia.
Qed.

Lemma keeps_tasks_startCleaning gw url channel msg st :
  consistent st → keeps_tasks st (startCleaning gw url channel msg st).2.
Proof.
  intros Hc. destruct (startCleaning_state gw url channel msg st)
    as [-> | (m & Hfree & ->)]; [apply keeps_tasks_refl |].
  by apply keeps_tasks_setInterval.
Qed.

Lemma restoreLoop_keeps world i result st :
  consistent st →
  consistent (restoreLoop world i result st)
  ∧ keeps_tasks st (restoreLoop world i result st).
Proof.
  revert i st. induction result as [|row rest IH]; intros i st Hc.
  { split; [done | apply keeps_tasks_refl]. }
  simpl.
  pose proof (consistent_startCleaning (gateway (world i)) (message_url row)
                (channel_id row) (message_id row) st Hc) as Hc1.
  pose proof (keeps_tasks_startCleaning (gateway (world i)) (message_url row)
                (channel_id row) (message_id row) st Hc) as Hk1.
  destruct (startCleaning (gateway (world i)) (message_url row)
              (channel_id row) (message_id row) st) as [result st1].
  cbn [snd] in *.
  destruct (success result).
  - destruct (IH (S i) st1 Hc1) as [Hc2 Hk2].
    split; [done | by eapply keeps_tasks_trans].
  - destruct (db_throws (world i)); [done |].
    assert (consistent (with_rows (deleteMessage (message_url row)
                                     (tracked_messages st1)) st1)) as Hc1'.
    { apply consistent_with_rows; [done |].
      apply NoDup_deleteMessage, (primary_key _ Hc1). }
    destruct (IH (S i) _ Hc1') as [Hc2 Hk2].
    split; [done |]. eapply keeps_tasks_trans; [exact Hk1 |].
    intros url handle Hl. by apply Hk2.
Qed.

Section HandlerFacts.
Context `{UrlApi}.

Lemma enable_body_keeps w url acc st :
  consistent st →
  consistent (EnableCmd.body w url acc st).2
  ∧ keeps_tasks st (EnableCmd.body w url acc st).2.
Proof.
  intros Hc. unfold EnableCmd.body.
  destruct (parseMessageUrl url) as [p|];
    [| split; [done | apply keeps_tasks_refl]].
  destruct (startCleaning (gateway w) url (channelId p) (messageId p) st)
    as [result st1] eqn:Hstart.
  destruct (success result) eqn:Hok.
  - pose proof (startCleaning_success (gateway w) url (channelId p)
                  (messageId p) st) as Hinv.
    rewrite Hstart in Hinv. destruct (Hinv Hok) as (c & msg & Hch & Hu & Hm & Hl).
    rewrite (startCleaning_starts _ _ _ _ _ c msg Hch Hu Hm Hl) in Hstart.
    injection Hstart as <- <-.
    destruct (db_throws w) as [dbError|]; cbn [snd].
    + rewrite (stopCleaning_setInterval url msg st Hc Hl).
      split; [| by intros u h Hu'].
      destruct Hc as [Ha Ho Hb Hk]. split; simpl; try done.
      intros handle Hs. apply Hb in Hs. lia.
    + split.
      * apply consistent_with_rows; [by apply consistent_setInterval |].
        apply NoDup_insertMessage, (primary_key _ Hc).
      * intros u h Hu'. by apply (keeps_tasks_setInterval url msg st Hc Hl).
  - pose proof (consistent_startCleaning (gateway w) url (channelId p)
                  (messageId p) st Hc) as Hc1.
    pose proof (keeps_tasks_startCleaning (gateway w) url (channelId p)
                  (messageId p) st Hc) as Hk1.
    rewrite Hstart in Hc1, Hk1. by case_bool_decide.
Qed.

Lemma enable_loop_keeps world i urls acc st :
  consistent st →
  consistent (EnableCmd.loop world i urls acc st).2
  ∧ keeps_tasks st (EnableCmd.loop world i urls acc st).2.
Proof.
  revert i acc st. induction urls as [|url urls IH]; intros i acc st Hc.
  { split; [done | apply keeps_tasks_refl]. }
  simpl. destruct (enable_body_keeps (world i) url acc st Hc) as [Hc1 Hk1].
  destruct (EnableCmd.body (world i) url acc st) as [acc1 st1].
  destruct (IH (S i) acc1 st1 Hc1) as [Hc2 Hk2].
  split; [done | by eapply keeps_tasks_trans].
Qed.

Lemma consistent_disable_body w url acc st :
  consistent st → consistent (DisableCmd.body w url acc st).2.
Proof.
  intros Hc. unfold DisableCmd.body.
  destruct (parseMessageUrl url); [| done].
  pose proof (consistent_stopCleaning url st Hc) as Hc1.
  destruct (stopCleaning url st) as [wasRunning st1].
  destruct wasRunning; [| done].
  destruct (db_throws w); [done |].
  apply consistent_with_rows; [done |].
  apply NoDup_deleteMessage, (primary_key _ Hc1).
Qed.

Lemma consistent_disable_loop world i urls acc st :
  consistent st → consistent (DisableCmd.loop world i urls acc st).2.
Proof.
  revert i acc st. induction urls as [|url urls IH]; intros i acc st Hc;
    [done |].
  simpl. pose proof (consistent_disable_body (world i) url acc st Hc) as Hc1.
  destruct (DisableCmd.body (world i) url acc st) as [acc1 st1].
  by apply IH.
Qed.

Lemma consistent_step ev st : consistent st → consistent (step ev st).
Proof.
  intros Hc. destruct ev as [world | world urls | world urls | w | h r | | |];
    simpl.
  - by apply restoreLoop_keeps.
  - by apply enable_loop_keeps.
  - by apply consistent_disable_loop.
  - unfold DisableAllCmd.handler.
    destruct (length (activeUrls st) =? 0); [done |].
    pose proof (consistent_stopEach (activeUrls st) st Hc) as Hc1.
    destruct (db_throws w); [done |].
    apply consistent_with_rows; [done | apply NoDup_nil_2].
  - unfold fire. by destruct (timers st !! h).
  - by apply consistent_db_close, consistent_stopEach.
  - by apply consistent_db_close, consistent_stopEach.
  - done.
Qed.

Lemma consistent_run evs st : consistent st → consistent (run evs st).
Proof.
  revert st. induction evs as [|ev evs IH]; intros st Hc; [done |].
  apply IH, consistent_step, Hc.
Qed.

(** Every state the program reaches from its start, whatever rows the table
    held then, keeps the task map and the live intervals in step. *)
Lemma consistent_reachable rows evs :
  NoDup (message_url <$> rows) →
  consistent (run evs (with_rows rows initial)).
Proof.
  intros Hnd. apply consistent_run, consistent_with_rows;
    [apply consistent_initial | done].
Qed.

Lemma run_firings firings st :
  run (map (λ f : nat * bool, IntervalFires f.1 f.2) firings) st = st.
Proof.
  induction firings as [|[h r] firings IH]; [done |].
  unfold run in *. simpl. unfold fire at 1.
  by destruct (timers st !! h).
Qed.

(** C8: for a registered task, whatever firings happen and however they
    end, the state is untouched: the task stays registered, and a further
    firing still runs the callback (a failed [removeAll] is logged, nothing
    else).  An event that is not a disable command or a termination signal
    leaves the task in the map under its handle, with its interval
    alive. *)
Theorem firing_failure_keeps_task
    (st : State) (url : string) (handle : nat) :
  consistent st →
  cleaningTasks st !! url = Some handle →
  (∀ firings : list (nat * bool),
     let st' := run (map (λ f, IntervalFires f.1 f.2) firings) st in
     st' = st
     ∧ cleaningTasks st' !! url = Some handle
     ∧ ∃ msg,
         timers st' !! handle
         = Some {| timer_url := url; timer_message := msg |}
         ∧ fire handle false st' = (Some (CleanError url msg), st')
         ∧ fire handle true st' = (Some (Cleaned url msg), st'))
  ∧ (∀ ev, explicit_stop ev = false →
       cleaningTasks (step ev st) !! url = Some handle
       ∧ timers (step ev st) !! handle = timers st !! handle).
Proof.
  intros Hc Hl. split.
  - intros firings st'. subst st'. rewrite run_firings.
    split; [done |]. split; [done |].
    destruct (tasks_alive _ Hc _ _ Hl) as ([u msg] & Ht & Hu).
    simpl in Hu. subst u. exists msg. unfold fire. by rewrite Ht.
  - intros ev Hev.
    destruct ev as [world | world urls | world urls | w | h r | | |];
      try discriminate; simpl.
    + by apply (restoreLoop_keeps world 0 (tracked_messages st) st Hc).
    + by apply (enable_loop_keeps world 0 urls EnableCmd.nothing st Hc).
    + unfold fire. by destruct (timers st !! h).
    + done.
Qed.

End HandlerFacts.

Lemma firing_failure_keeps_task_witness :
  run [IntervalFires 0 false; IntervalFires 0 false; IntervalFires 0 true]
      Fixture.cleaning = Fixture.cleaning
  ∧ fire 0 false Fixture.cleaning
    = (Some (CleanError Fixture.url Fixture.msg), Fixture.cleaning)
  ∧ cleaningTasks
      (step (EnableReactionCleaning (λ _, Fixture.disk_full) [Fixture.other])
            Fixture.cleaning) !! Fixture.url = Some 0.
Proof.
  destruct (firing_failure_keeps_task Fixture.cleaning Fixture.url 0
              consistent_cleaning ltac:(by vm_compute)) as [Hfire Hstep].
  destruct (Hfire [(0, false); (0, false); (0, true)])
    as (Hsame & _ & msg & Ht & Hfail & _).
  split; [exact Hsame |]. split.
  - by vm_compute.
  - by apply (Hstep (EnableReactionCleaning (λ _, Fixture.disk_full)
                       [Fixture.other])).
Defined.

(** ** Restoring at boot *)

(** When every row read has a running task, no start succeeds: without a
    database fault every one of those rows is deleted, and nothing else
    changes. *)
Lemma restoreLoop_all_running world i result st :
  (∀ j, db_throws (world j) = None) →
  (∀ row, row ∈ result → is_Some (cleaningTasks st !! message_url row)) →
  cleaningTasks (restoreLoop world i result st) = cleaningTasks st
  ∧ timers (restoreLoop world i result st) = timers st
  ∧ ∀ row, row ∈ tracked_messages (restoreLoop world i result st) →
           row ∈ tracked_messages st
           ∧ message_url row ∉ message_url <$> result.
Proof.
  intros Hdb. revert i st. induction result as [|row rest IH]; intros i st Hall.
  { simpl. split; [done |]. split; [done |]. intros row Hin.
    split; [done | apply not_elem_of_nil]. }
  simpl.
  assert (success (startCleaning (gateway (world i)) (message_url row)
                     (channel_id row) (message_id row) st).1 = false) as Hno.
  { destruct (success _) eqn:Hok; [| done].
    apply startCleaning_success in Hok as (c & msg & _ & _ & _ & Hfree).
    destruct (Hall row) as [handle Hl]; [apply list_elem_of_here |]. congruence. }
  pose proof (startCleaning_failure_state _ _ _ _ _ Hno) as Hst.
  destruct (startCleaning (gateway (world i)) (message_url row)
              (channel_id row) (message_id row) st) as [result st1].
  cbn [fst snd] in *. subst st1. rewrite Hno, Hdb.
  destruct (IH (S i) (with_rows (deleteMessage (message_url row)
                                   (tracked_messages st)) st))
    as (Htasks & Htimers & Hrows).
  { intros r Hr. simpl. apply Hall. by apply list_elem_of_further. }
  split; [done |]. split; [done |].
  intros r Hr. destruct (Hrows r Hr) as [Hin Hnotin]. simpl in Hin.
  apply list_elem_of_In, filter_In in Hin as [Hin Hne].
  apply negb_true_iff, bool_decide_eq_false in Hne.
  split; [by apply list_elem_of_In |].
  rewrite ?fmap_cons, not_elem_of_cons. done.
Qed.

Lemma startCleaning_grows gw url channel msg st u :
  is_Some (cleaningTasks st !! u) →
  is_Some (cleaningTasks (startCleaning gw url channel msg st).2 !! u).
Proof.
  intros Hu. destruct (startCleaning_state gw url channel msg st)
    as [-> | (m & Hfree & ->)]; [done |].
  simpl. rewrite lookup_insert. by case_decide.
Qed.

Lemma restoreLoop_grows world i result st u :
  is_Some (cleaningTasks st !! u) →
  is_Some (cleaningTasks (restoreLoop world i result st) !! u).
Proof.
  revert i st. induction result as [|row rest IH]; intros i st Hu; [done |].
  simpl.
  pose proof (startCleaning_grows (gateway (world i)) (message_url row)
                (channel_id row) (message_id row) st u Hu) as Hu1.
  destruct (startCleaning (gateway (world i)) (message_url row)
              (channel_id row) (message_id row) st) as [result st1].
  cbn [snd] in Hu1. destruct (success result); [by apply IH |].
  destruct (db_throws (world i)); [done |]. by apply IH.
Qed.

(** After a pass without database faults, every row that survived belongs to
    a reference whose task is running. *)
Lemma restoreLoop_survivors_running world i result st :
  (∀ j, db_throws (world j) = None) →
  ∀ row, row ∈ tracked_messages (restoreLoop world i result st) →
         row ∈ tracked_messages st
         ∧ (message_url row ∈ message_url <$> result →
            is_Some (cleaningTasks (restoreLoop world i result st)
                     !! message_url row)).
Proof.
  intros Hdb. revert i st. induction result as [|row rest IH]; intros i st r Hr.
  { simpl in *. split; [done |]. intros Hin. by apply elem_of_nil in Hin. }
  simpl in *.
  pose proof (startCleaning_success (gateway (world i)) (message_url row)
                (channel_id row) (message_id row) st) as Hinv.
  pose proof (startCleaning_failure_state (gateway (world i))
                (message_url row) (channel_id row) (message_id row) st) as Hfail.
  destruct (startCleaning (gateway (world i)) (message_url row)
              (channel_id row) (message_id row) st) as [result st1] eqn:Hstart.
  cbn [fst snd] in *. destruct (success result) eqn:Hok.
  - destruct (Hinv eq_refl) as (c & msg & Hch & Hu & Hm & Hfree).
    rewrite (startCleaning_starts _ _ _ _ _ c msg Hch Hu Hm Hfree) in Hstart.
    injection Hstart as <- <-.
    destruct (IH (S i) _ r Hr) as [Hin Hrun]. split; [done |].
    rewrite ?fmap_cons, elem_of_cons. intros [Heq | Hrest]; [| by apply Hrun].
    rewrite Heq. apply restoreLoop_grows. simpl.
    rewrite lookup_insert_eq. eauto.
  - rewrite Hdb in *. rewrite (Hfail eq_refl) in *.
    destruct (IH (S i) _ r Hr) as [Hin Hrun]. simpl in Hin.
    apply list_elem_of_In, filter_In in Hin as [Hin Hne].
    apply negb_true_iff, bool_decide_eq_false in Hne.
    split; [by apply list_elem_of_In |].
    rewrite ?fmap_cons, elem_of_cons. intros [Heq | Hrest]; [done | by apply Hrun].
Qed.

(** Two passes in a row without database faults empty the table, whatever
    the gateway answers: the rows that survived the first pass have running
    tasks, so each of their starts fails in the second pass and the row is
    deleted; the tasks keep running. *)
Lemma restore_twice_empties_table world1 world2 st :
  (∀ j, db_throws (world1 j) = None) →
  (∀ j, db_throws (world2 j) = None) →
  let once := restoreCleaningTasks world1 st in
  let twice := restoreCleaningTasks world2 once in
  tracked_messages twice = []
  ∧ cleaningTasks twice = cleaningTasks once
  ∧ timers twice = timers once.
Proof.
  intros Hdb1 Hdb2 once twice. subst once twice.
  unfold restoreCleaningTasks, getAllMessages.
  set (once := restoreLoop world1 0 (tracked_messages st) st).
  destruct (restoreLoop_all_running world2 0 (tracked_messages once) once Hdb2)
    as (Htasks & Htimers & Hrows).
  { intros row Hrow.
    destruct (restoreLoop_survivors_running world1 0 (tracked_messages st) st
                Hdb1 row Hrow) as [Hin Hrun].
    apply Hrun, list_elem_of_fmap. eauto. }
  split; [| done].
  destruct (tracked_messages (restoreLoop world2 0 (tracked_messages once) once))
    as [|row rows] eqn:Hfinal; [done |].
  destruct (Hrows row) as [Hin Hnotin]; [apply list_elem_of_here |].
  exfalso. apply Hnotin, list_elem_of_fmap. eauto.
Qed.

(** C1 (the code against the claim): from the state after a restart (one row
    whose channel and message resolve, no task), the first pass keeps the
    row and starts the task; a second pass right after it gets "Already
    cleaning this message" from [startCleaning], takes it for a failed
    restore and deletes the row, while the task keeps running without a
    row. *)
Theorem restore_twice_drops_live_record :
  let once := restoreCleaningTasks (λ _, Fixture.calm) Fixture.restarted in
  let twice := restoreCleaningTasks (λ _, Fixture.calm) once in
  tracked once = [Fixture.url]
  ∧ cleaningTasks once !! Fixture.url = Some 0
  ∧ startCleaning Fixture.discord Fixture.url "111" "222" once
    = (failure already_cleaning, once)
  ∧ tracked twice = []
  ∧ cleaningTasks twice !! Fixture.url = Some 0
  ∧ tasks_of Fixture.url twice
    = {[ 0 := {| timer_url := Fixture.url; timer_message := Fixture.msg |} ]}.
Proof. by vm_compute. Qed.

(** * Further properties of the code *)

(** ** Splitting the option string *)

Lemma starts_with_app p s t :
  Batch.starts_with p s = true → Batch.starts_with p (s ++ t) = true.
Proof.
  revert s. induction p as [|a p IH]; intros s; [done |].
  destruct s as [|b s]; [done |]. simpl.
  intros [Hab Hps]%andb_true_iff. rewrite Hab. by apply IH.
Qed.

Lemma starts_with_self p post : Batch.starts_with p (p ++ post) = true.
Proof.
  induction p as [|a p IH]; [done |]. simpl.
  by rewrite Ascii.eqb_refl.
Qed.

Lemma starts_with_inv p s :
  Batch.starts_with p s = true → ∃ post, s = (p ++ post)%list.
Proof.
  revert s. induction p as [|a p IH]; intros s; [by exists s |].
  destruct s as [|b s]; [done |]. simpl.
  intros [Hab Hps]%andb_true_iff. apply Ascii.eqb_eq in Hab as ->.
  destruct (IH s Hps) as [post ->]. by exists post.
Qed.

Lemma match_len_pos class s p :
  (∀ q, In q class → q ≠ []) →
  In p class → Batch.starts_with p s = true →
  Batch.match_len class s ≠ 0.
Proof.
  intros Hne Hin Hp. unfold Batch.match_len.
  destruct (find (λ p, Batch.starts_with p s) class) as [q|] eqn:Hfind.
  - apply find_some in Hfind as [Hq _]. specialize (Hne q Hq).
    destruct q; [done | simpl; lia].
  - apply (find_none _ _ Hfind) in Hin. simpl in Hin. congruence.
Qed.

Lemma match_len_found class s k :
  Batch.match_len class s = S k →
  ∃ p, In p class ∧ Batch.starts_with p s = true ∧ length p = S k.
Proof.
  unfold Batch.match_len.
  destruct (find (λ p, Batch.starts_with p s) class) as [q|] eqn:Hfind;
    [| done].
  apply find_some in Hfind as [Hq Hs]. eauto.
Qed.

Lemma separators_nonempty q : In q Batch.separators → q ≠ [].
Proof.
  intros Hin ->. revert Hin. vm_compute.
  intuition discriminate.
Qed.

Lemma white_space_separators q :
  In q Batch.white_space → In q Batch.separators.
Proof. intros Hin. by right. Qed.

(** The first piece is a prefix of what is split. *)
Lemma split_runs_head class s :
  ∃ piece pieces tail,
    Batch.split_runs class s 0 false = piece :: pieces
    ∧ s = (piece ++ tail)%list.
Proof.
  induction s as [|c s IH]; [by exists [], [], [] |].
  simpl. destruct (Batch.match_len class (c :: s)) as [|k].
  - destruct IH as (piece & pieces & tail & -> & ->).
    by exists (c :: piece), pieces, tail.
  - by exists [], (Batch.split_runs class s k true), (c :: s).
Qed.

(** Inside a piece nothing of the class starts: at each of its positions the
    input, from there on, starts with no member. *)
Lemma split_runs_piece class s skip in_run piece :
  piece ∈ Batch.split_runs class s skip in_run →
  ∀ pre c post, piece = (pre ++ c :: post)%list →
    ∃ tail, Batch.match_len class (c :: post ++ tail) = 0.
Proof.
  revert skip in_run piece.
  induction s as [|c0 s IH]; intros skip in_run piece Hin pre c post Hpiece.
  { simpl in Hin. apply list_elem_of_singleton in Hin. subst piece.
    by destruct pre. }
  simpl in Hin. destruct skip as [|k]; [| by eapply IH].
  destruct (Batch.match_len class (c0 :: s)) as [|k] eqn:Hlen.
  - destruct (split_runs_head class s) as (piece0 & pieces & tail & Hsplit & ->).
    pose proof (IH 0 false) as IH0. rewrite Hsplit in *.
    apply elem_of_cons in Hin as [-> | Hin].
    + destruct pre as [|x pre]; simpl in Hpiece.
      * injection Hpiece as <- <-. by exists tail.
      * injection Hpiece as <- ->.
        by apply (IH0 _ ltac:(by apply list_elem_of_here) pre c post).
    + by apply (IH0 piece ltac:(by apply list_elem_of_further) pre c post).
  - assert (piece ∈ [] :: Batch.split_runs class s k true) as Hin'.
    { destruct in_run; [by apply list_elem_of_further | done]. }
    apply elem_of_cons in Hin' as [-> | Hin']; [by destruct pre |].
    by eapply IH.
Qed.

Lemma piece_free_of_separators s skip in_run piece sep :
  piece ∈ Batch.split_runs Batch.separators s skip in_run →
  In sep Batch.separators → ¬ occurs sep piece.
Proof.
  intros Hin Hsep (pre & post & Hpiece).
  destruct sep as [|c sep']; [by apply separators_nonempty in Hsep |].
  destruct (split_runs_piece _ _ _ _ _ Hin pre c (sep' ++ post))
    as [tail Hzero]; [by rewrite Hpiece |].
  apply (match_len_pos Batch.separators (c :: (sep' ++ post) ++ tail)
           (c :: sep') separators_nonempty Hsep); [| done].
  rewrite <- app_assoc. apply (starts_with_self (c :: sep')).
Qed.

Lemma trim_front_suffix class s skip :
  ∃ pre, s = (pre ++ Batch.trim_front class s skip)%list.
Proof.
  revert skip. induction s as [|c s IH]; intros skip; [by exists [] |].
  simpl. destruct skip as [|k].
  - destruct (Batch.match_len class (c :: s)) as [|k]; [by exists [] |].
    destruct (IH k) as [pre Hpre]. exists (c :: pre). simpl. by rewrite <- Hpre.
  - destruct (IH k) as [pre Hpre]. exists (c :: pre). simpl. by rewrite <- Hpre.
Qed.

Lemma trim_infix u : ∃ a b, u = (a ++ Batch.trim u ++ b)%list.
Proof.
  unfold Batch.trim.
  destruct (trim_front_suffix Batch.white_space u 0) as [a Ha].
  set (v := Batch.trim_front Batch.white_space u 0) in *.
  destruct (trim_front_suffix (map (@rev ascii) Batch.white_space) (rev v) 0)
    as [b Hb].
  exists a, (rev b). rewrite Ha at 1. f_equal.
  rewrite <- rev_app_distr, <- Hb. by rewrite rev_involutive.
Qed.

Lemma occurs_trim sep u : occurs sep (Batch.trim u) → occurs sep u.
Proof.
  intros (pre & post & Htrim). destruct (trim_infix u) as (a & b & Hu).
  exists (a ++ pre)%list, (post ++ b)%list. rewrite Hu at 1. rewrite Htrim.
  by rewrite !app_assoc.
Qed.

(** X1: whatever the option string is, every URL the handlers loop over is
    non-empty and contains no comma and no white space character (none of
    the code points the separator class matches). *)
Theorem splitUrls_tokens (messageUrlsRaw u : string) :
  u ∈ Batch.splitUrls messageUrlsRaw →
  u ≠ EmptyString
  ∧ ∀ sep, In sep Batch.separators → ¬ occurs sep (list_ascii_of_string u).
Proof.
  unfold Batch.splitUrls. intros Hin.
  apply list_elem_of_In, filter_In in Hin as [Hin Hlen].
  split; [by intros -> |].
  apply in_map_iff in Hin as (piece & <- & Hpiece).
  intros sep Hsep Hocc. rewrite list_ascii_of_string_of_list_ascii in Hocc.
  apply occurs_trim in Hocc.
  by eapply piece_free_of_separators; [apply list_elem_of_In | |].
Qed.

Lemma splitUrls_tokens_witness :
  "b" ∈ Batch.splitUrls " a,b  c" ∧ "b" ≠ EmptyString
  ∧ ¬ occurs [","%char] (list_ascii_of_string "b").
Proof.
  assert ("b" ∈ Batch.splitUrls " a,b  c") as Hin.
  { vm_compute. apply list_elem_of_further, list_elem_of_here. }
  destruct (splitUrls_tokens " a,b  c" "b" Hin) as [Hne Hfree].
  split; [done |]. split; [done |]. apply Hfree. by left.
Defined.



Lemma ascii_separator_match c rest :
  ascii_separator c = true →
  Batch.match_len Batch.separators (c :: rest) = 1.
Proof.
  destruct c as [[] [] [] [] [] [] [] []]; vm_compute; intros Hp;
    first [discriminate Hp | done].
Qed.



Lemma tokens_in_run s :
  tokens (Batch.split_runs Batch.separators s 0 true)
  = tokens (Batch.split_runs Batch.separators s 0 false).
Proof.
  destruct s as [|c s]; [done |]. simpl.
  by destruct (Batch.match_len Batch.separators (c :: s)).
Qed.


Arguments Batch.splitUrls : simpl never.

Lemma split_runs_separator c s in_run :
  ascii_separator c = true →
  Batch.split_runs Batch.separators (c :: s) 0 in_run
  = if in_run then Batch.split_runs Batch.separators s 0 true
    else [] :: Batch.split_runs Batch.separators s 0 true.
Proof.
  intros Hc. cbn [Batch.split_runs].
  by rewrite (ascii_separator_match c s Hc).
Qed.

Lemma tokens_cons piece pieces :
  tokens (piece :: pieces)
  = if Js.nonempty (string_of_list_ascii (Batch.trim piece))
    then string_of_list_ascii (Batch.trim piece) :: tokens pieces
    else tokens pieces.
Proof. reflexivity. Qed.

Lemma splitUrls_tokens_of raw :
  Batch.splitUrls raw
  = tokens (Batch.split_runs Batch.separators (list_ascii_of_string raw)
              0 false).
Proof. reflexivity. Qed.

Lemma splitUrls_separator c rest :
  ascii_separator c = true →
  Batch.splitUrls (String c rest) = Batch.splitUrls rest.
Proof.
  intros Hc. rewrite !splitUrls_tokens_of.
  change (list_ascii_of_string (String c rest))
    with (c :: list_ascii_of_string rest).
  rewrite (split_runs_separator _ _ _ Hc), tokens_cons.
  change (Batch.trim []) with (@nil ascii).
  change (Js.nonempty (string_of_list_ascii [])) with false.
  apply tokens_in_run.
Qed.

Lemma splitUrls_separators gap rest :
  forallb ascii_separator (list_ascii_of_string gap) = true →
  Batch.splitUrls (gap +:+ rest) = Batch.splitUrls rest.
Proof.
  induction gap as [|c gap IH]; [done |]. simpl.
  intros [Hc Hgap]%andb_true_iff.
  change (String c gap +:+ rest) with (String c (gap +:+ rest)).
  rewrite splitUrls_separator by done. by apply IH.
Qed.




Lemma append_empty a : a +:+ EmptyString = a.
Proof.
  induction a as [|x a IH]; [done |].
  change (String x (a +:+ EmptyString) = String x a). by rewrite IH.
Qed.


Lemma splitUrls_only_separators gap :
  forallb ascii_separator (list_ascii_of_string gap) = true →
  Batch.splitUrls gap = [].
Proof.
  intros Hgap. rewrite <- (append_empty gap).
  by rewrite (splitUrls_separators gap EmptyString Hgap).
Qed.



(** ** A batch of references *)

Section BatchFacts.
Context `{UrlApi}.

Lemma enable_body_reported w url acc st :
  enable_reported (EnableCmd.body w url acc st).1 = S (enable_reported acc).
Proof.
  unfold EnableCmd.body, enable_reported.
  destruct (parseMessageUrl url) as [p|].
  2:{ simpl. rewrite length_app. simpl. lia. }
  destruct (startCleaning (gateway w) url (channelId p) (messageId p) st)
    as [result st1].
  destruct (success result).
  - destruct (db_throws w); simpl; rewrite length_app; simpl; lia.
  - case_bool_decide; simpl; rewrite length_app; simpl; lia.
Qed.

Lemma enable_body_invalid w url acc st :
  EnableCmd.invalid (EnableCmd.body w url acc st).1
  = (EnableCmd.invalid acc ++ (if unparsable url then [url] else []))%list.
Proof.
  unfold EnableCmd.body, unparsable.
  destruct (parseMessageUrl url) as [p|] eqn:Hp.
  2:{ by rewrite bool_decide_eq_true_2. }
  rewrite bool_decide_eq_false_2 by done. rewrite app_nil_r.
  destruct (startCleaning (gateway w) url (channelId p) (messageId p) st)
    as [result st1].
  destruct (success result).
  - by destruct (db_throws w).
  - by case_bool_decide.
Qed.

Lemma enable_loop_reported world i urls acc st :
  enable_reported (EnableCmd.loop world i urls acc st).1
  = enable_reported acc + length urls
  ∧ EnableCmd.invalid (EnableCmd.loop world i urls acc st).1
    = (EnableCmd.invalid acc ++ List.filter unparsable urls)%list.
Proof.
  revert i acc st. induction urls as [|url urls IH]; intros i acc st.
  { simpl. split; [lia | by rewrite app_nil_r]. }
  simpl.
  pose proof (enable_body_reported (world i) url acc st) as Hcount.
  pose proof (enable_body_invalid (world i) url acc st) as Hinv.
  destruct (EnableCmd.body (world i) url acc st) as [acc1 st1].
  cbn [fst] in *. destruct (IH (S i) acc1 st1) as [-> ->].
  rewrite Hcount, Hinv. split; [lia |].
  rewrite <- app_assoc. by destruct (unparsable url).
Qed.

(** X3: every URL of an enable batch is reported exactly once (the four
    lists of the reply have as many entries as the batch has URLs), and the
    invalid list is exactly the URLs that do not parse, in the order given,
    whatever the gateway, the state and the other URLs of the batch. *)
Theorem enable_batch_reports_each_url
    (world : nat → Env) (urls : list string) (st : State) :
  enable_reported (EnableCmd.handler world urls st).1 = length urls
  ∧ EnableCmd.invalid (EnableCmd.handler world urls st).1
    = List.filter unparsable urls.
Proof.
  unfold EnableCmd.handler.
  destruct (enable_loop_reported world 0 urls EnableCmd.nothing st) as [-> ->].
  done.
Qed.

Lemma enable_body_unparsable w url acc st :
  parseMessageUrl url = None →
  EnableCmd.body w url acc st = (EnableCmd.push_invalid url acc, st).
Proof. intros Hp. unfold EnableCmd.body. by rewrite Hp. Qed.

Lemma enable_body_same_but_invalid w url acc acc' st :
  same_but_invalid acc acc' →
  same_but_invalid (EnableCmd.body w url acc st).1
                   (EnableCmd.body w url acc' st).1
  ∧ (EnableCmd.body w url acc st).2 = (EnableCmd.body w url acc' st).2.
Proof.
  intros (Hs & Ha & He). unfold EnableCmd.body.
  destruct (parseMessageUrl url) as [p|]; [| done].
  destruct (startCleaning (gateway w) url (channelId p) (messageId p) st)
    as [result st1].
  destruct (success result).
  - destruct (db_throws w); (split; [| done]); repeat split; simpl; congruence.
  - case_bool_decide; (split; [| done]); repeat split; simpl; congruence.
Qed.

Lemma enable_loop_skips_unparsable w i j urls acc acc' st :
  same_but_invalid acc acc' →
  same_but_invalid
    (EnableCmd.loop (λ _, w) i urls acc st).1
    (EnableCmd.loop (λ _, w) j (List.filter (λ u, negb (unparsable u)) urls)
       acc' st).1
  ∧ (EnableCmd.loop (λ _, w) i urls acc st).2
    = (EnableCmd.loop (λ _, w) j (List.filter (λ u, negb (unparsable u)) urls)
         acc' st).2.
Proof.
  revert i j acc acc' st.
  induction urls as [|url urls IH]; intros i j acc acc' st Hsame; [done |].
  simpl. destruct (unparsable url) eqn:Hu; simpl.
  - apply bool_decide_eq_true in Hu.
    rewrite (enable_body_unparsable w url acc st Hu).
    apply IH. by destruct Hsame as (? & ? & ?).
  - destruct (enable_body_same_but_invalid w url acc acc' st Hsame)
      as [Hsame1 Hst].
    destruct (EnableCmd.body w url acc st) as [acc1 st1].
    destruct (EnableCmd.body w url acc' st) as [acc1' st1'].
    cbn [fst snd] in *. subst st1'. by apply IH.
Qed.

Lemma filter_parsable_unparsable urls :
  List.filter unparsable (List.filter (λ u, negb (unparsable u)) urls) = [].
Proof.
  induction urls as [|u urls IH]; [done |].
  simpl. destruct (unparsable u) eqn:Hu; simpl; [done |]. by rewrite Hu.
Qed.

(** X4: a malformed URL does not touch the rest of an enable batch: with the
    outside answering alike for every URL, the batch ends in the same state,
    with the same started, already-running and error lists, as the batch
    without its unparsable URLs. *)
Theorem enable_batch_ignores_unparsable
    (w : Env) (urls : list string) (st : State) :
  let whole := EnableCmd.handler (λ _, w) urls st in
  let valid :=
    EnableCmd.handler (λ _, w)
      (List.filter (λ u, negb (unparsable u)) urls) st in
  whole.2 = valid.2
  ∧ EnableCmd.started whole.1 = EnableCmd.started valid.1
  ∧ EnableCmd.alreadyRunning whole.1 = EnableCmd.alreadyRunning valid.1
  ∧ EnableCmd.errors whole.1 = EnableCmd.errors valid.1
  ∧ EnableCmd.invalid valid.1 = [].
Proof.
  intros whole valid. subst whole valid. unfold EnableCmd.handler.
  destruct (enable_loop_skips_unparsable w 0 0 urls EnableCmd.nothing
              EnableCmd.nothing st) as [(Hs & Ha & He) Hst];
    [by repeat split |].
  repeat split; try done.
  destruct (enable_loop_reported (λ _, w) 0
              (List.filter (λ u, negb (unparsable u)) urls)
              EnableCmd.nothing st) as [_ ->].
  apply filter_parsable_unparsable.
Qed.

Lemma disable_body_reported w url acc st :
  disable_reported (DisableCmd.body w url acc st).1 = S (disable_reported acc)
  ∧ DisableCmd.invalid (DisableCmd.body w url acc st).1
    = (DisableCmd.invalid acc ++ (if unparsable url then [url] else []))%list.
Proof.
  unfold DisableCmd.body, disable_reported, unparsable.
  destruct (parseMessageUrl url) as [p|] eqn:Hp.
  2:{ rewrite bool_decide_eq_true_2 by done. simpl.
      rewrite length_app. simpl. split; [lia | done]. }
  rewrite bool_decide_eq_false_2 by done. rewrite app_nil_r.
  destruct (stopCleaning url st) as [wasRunning st1].
  destruct wasRunning; [destruct (db_throws w) |]; simpl;
    rewrite length_app; simpl; (split; [lia | done]).
Qed.

(** X5: every URL of a disable batch is reported exactly once, as stopped,
    not running or invalid, and the invalid list is exactly the URLs that
    do not parse, in the order given. *)
Theorem disable_batch_reports_each_url
    (world : nat → Env) (urls : list string) (st : State) :
  disable_reported (DisableCmd.handler world urls st).1 = length urls
  ∧ DisableCmd.invalid (DisableCmd.handler world urls st).1
    = List.filter unparsable urls.
Proof.
  unfold DisableCmd.handler.
  assert (∀ i acc st,
            disable_reported (DisableCmd.loop world i urls acc st).1
            = disable_reported acc + length urls
            ∧ DisableCmd.invalid (DisableCmd.loop world i urls acc st).1
              = (DisableCmd.invalid acc ++ List.filter unparsable urls)%list)
    as Hloop.
  { induction urls as [|url urls IH]; intros i acc st'.
    { simpl. split; [lia | by rewrite app_nil_r]. }
    simpl. destruct (disable_body_reported (world i) url acc st')
      as [Hcount Hinv].
    destruct (DisableCmd.body (world i) url acc st') as [acc1 st1].
    cbn [fst] in *. destruct (IH (S i) acc1 st1) as [-> ->].
    rewrite Hcount, Hinv. split; [lia |].
    rewrite <- app_assoc. by destruct (unparsable url). }
  destruct (Hloop 0 DisableCmd.nothing st) as [-> ->]. done.
Qed.

End BatchFacts.

(** ** Enabling and disabling one reference *)

Lemma deleteMessage_other url other rows :
  other ≠ url →
  List.filter (λ row, bool_decide (message_url row = other))
    (deleteMessage url rows)
  = List.filter (λ row, bool_decide (message_url row = other)) rows.
Proof.
  intros Hne. unfold deleteMessage.
  induction rows as [|row rows IH]; [done |].
  cbn [List.filter].
  destruct (decide (message_url row = url)) as [Hu | Hu].
  - rewrite (bool_decide_eq_true_2 _ Hu). cbn [negb].
    rewrite (bool_decide_eq_false_2 (message_url row = other)) by congruence.
    exact IH.
  - rewrite (bool_decide_eq_false_2 _ Hu). cbn [negb List.filter].
    by rewrite IH.
Qed.

Section ReferenceFacts.
Context `{UrlApi}.

(** X6: an enable that does not report the URL as started (it is invalid,
    its channel or message does not resolve, the channel kind is refused,
    it is already being cleaned, or the insert threw) leaves the task map,
    the live intervals, the table and the connection as they were. *)
Theorem enable_not_started_changes_nothing
    (w : Env) (url : string) (acc : EnableCmd.Lists) (st : State) :
  consistent st →
  (EnableCmd.body w url acc st).1 ≠ EnableCmd.push_started url acc →
  let st' := (EnableCmd.body w url acc st).2 in
  cleaningTasks st' = cleaningTasks st
  ∧ timers st' = timers st
  ∧ tracked_messages st' = tracked_messages st
  ∧ db_open st' = db_open st.
Proof.
  intros Hc. unfold EnableCmd.body.
  destruct (parseMessageUrl url) as [p|]; [| done].
  pose proof (startCleaning_success (gateway w) url (channelId p)
                (messageId p) st) as Hinv.
  pose proof (startCleaning_failure_state (gateway w) url (channelId p)
                (messageId p) st) as Hfail.
  destruct (startCleaning (gateway w) url (channelId p) (messageId p) st)
    as [result st1] eqn:Hstart.
  cbn [fst snd] in *. destruct (success result) eqn:Hok.
  - destruct (Hinv eq_refl) as (c & msg & Hch & Hu & Hm & Hl).
    rewrite (startCleaning_starts _ _ _ _ _ c msg Hch Hu Hm Hl) in Hstart.
    injection Hstart as <- <-.
    destruct (db_throws w); [| done]. intros _. cbn [snd].
    by rewrite (stopCleaning_setInterval url msg st Hc Hl).
  - rewrite (Hfail eq_refl). by case_bool_decide.
Qed.

(** X7: an enable that reports the URL as started leaves it with a running
    task and a row.  A row the table already held for the URL is kept as it
    was (INSERT OR IGNORE); otherwise one row with the ids parsed from the
    URL is appended.  The other rows are untouched. *)
Theorem enable_started_is_tracked
    (w : Env) (url : string) (acc : EnableCmd.Lists) (st : State) :
  (EnableCmd.body w url acc st).1 = EnableCmd.push_started url acc →
  let st' := (EnableCmd.body w url acc st).2 in
  is_Some (cleaningTasks st' !! url)
  ∧ url ∈ tracked st'
  ∧ (url ∈ tracked st → tracked_messages st' = tracked_messages st)
  ∧ (url ∉ tracked st →
     ∃ p, parseMessageUrl url = Some p
          ∧ tracked_messages st'
            = (tracked_messages st
               ++ [{| message_url := url; channel_id := channelId p;
                      message_id := messageId p;
                      added_at := timestamp w |}])%list).
Proof.
  intros Hstarted st'. subst st'.
  destruct (enable_body_started _ _ _ _ Hstarted)
    as (p & c & msg & Hp & Hch & Hu & Hm & Hfree & Hdb & ->).
  split; [simpl; rewrite lookup_insert_eq; eauto |].
  split.
  { unfold tracked. simpl. apply tracked_insertMessage. by left. }
  unfold tracked. simpl. unfold insertMessage. split.
  - intros Hin. apply has_key_tracked in Hin. by rewrite Hin.
  - intros Hnotin. exists p. split; [done |].
    destruct (has_key url (tracked_messages st)) eqn:Hkey; [| done].
    by apply has_key_tracked in Hkey.
Qed.

(** X8: enabling a reference that has no row and then disabling it, without
    a database fault, gives back the state before the two commands: the
    same task map, the same live intervals, the same table.  Only the
    counter of interval handles has moved on. *)
Theorem enable_then_disable_restores
    (w1 w2 : Env) (url : string) (acc1 : EnableCmd.Lists)
    (acc2 : DisableCmd.Lists) (st : State) :
  consistent st →
  url ∉ tracked st →
  (EnableCmd.body w1 url acc1 st).1 = EnableCmd.push_started url acc1 →
  db_throws w2 = None →
  let st1 := (EnableCmd.body w1 url acc1 st).2 in
  DisableCmd.body w2 url acc2 st1
  = (DisableCmd.push_stopped url acc2,
     {| cleaningTasks := cleaningTasks st; timers := timers st;
        next_timer := S (next_timer st);
        tracked_messages := tracked_messages st; db_open := db_open st |}).
Proof.
  intros Hc Hnotin Hstarted Hdb2 st1. subst st1.
  destruct (enable_body_started _ _ _ _ Hstarted)
    as (p & c & msg & Hp & Hch & Hu & Hm & Hfree & Hdb & ->).
  unfold DisableCmd.body. rewrite Hp.
  assert (stopCleaning url
            (with_rows
               (insertMessage (timestamp w1) url (channelId p) (messageId p)
                  (tracked_messages st)) (setInterval url msg st))
          = (true,
             {| cleaningTasks := cleaningTasks st; timers := timers st;
                next_timer := S (next_timer st);
                tracked_messages :=
                  insertMessage (timestamp w1) url (channelId p) (messageId p)
                    (tracked_messages st);
                db_open := db_open st |})) as ->.
  { pose proof (stopCleaning_setInterval url msg st Hc Hfree) as Hstop.
    unfold stopCleaning in *. simpl in *. rewrite lookup_insert_eq in *.
    simpl in *. injection Hstop as Ht Hi. by rewrite Ht, Hi. }
  rewrite Hdb2. f_equal. unfold with_rows. simpl. f_equal.
  unfold insertMessage.
  destruct (has_key url (tracked_messages st)) eqn:Hkey.
  { by apply has_key_tracked in Hkey. }
  unfold deleteMessage. rewrite List.filter_app. simpl.
  rewrite bool_decide_eq_true_2 by done. simpl. rewrite app_nil_r.
  by apply deleteMessage_absent.
Qed.

(** X9: disabling a reference twice in a row reports it as not running the
    second time, whatever happened the first time, and the second command
    changes nothing. *)
Theorem disable_twice_not_running
    (w1 w2 : Env) (url : string) (acc1 acc2 : DisableCmd.Lists) (st : State) :
  is_Some (parseMessageUrl url) →
  let st1 := (DisableCmd.body w1 url acc1 st).2 in
  DisableCmd.body w2 url acc2 st1 = (DisableCmd.push_notRunning url acc2, st1).
Proof.
  intros [p Hp] st1.
  assert (cleaningTasks st1 !! url = None) as Hnone.
  { subst st1. unfold DisableCmd.body. rewrite Hp.
    pose proof (stopCleaning_tasks url st) as Htasks.
    destruct (stopCleaning url st) as [wasRunning st'] eqn:Hstop.
    cbn [snd] in Htasks.
    assert (cleaningTasks st' !! url = None) as Hl
      by (rewrite Htasks; apply lookup_delete_eq).
    destruct wasRunning; [| done]. by destruct (db_throws w1). }
  unfold DisableCmd.body. rewrite Hp. unfold stopCleaning. by rewrite Hnone.
Qed.

(** X10: disabling one reference leaves every other reference alone: its
    entry in the task map, its interval and its rows are what they were. *)
Theorem disable_leaves_other_references
    (w : Env) (url other : string) (acc : DisableCmd.Lists) (st : State) :
  consistent st →
  other ≠ url →
  let st' := (DisableCmd.body w url acc st).2 in
  cleaningTasks st' !! other = cleaningTasks st !! other
  ∧ tasks_of other st' = tasks_of other st
  ∧ List.filter (λ row, bool_decide (message_url row = other))
      (tracked_messages st')
    = List.filter (λ row, bool_decide (message_url row = other))
        (tracked_messages st).
Proof.
  intros Hc Hne st'. subst st'. unfold DisableCmd.body.
  destruct (parseMessageUrl url); [| done].
  unfold stopCleaning.
  destruct (cleaningTasks st !! url) as [handle|] eqn:Hl; [| done].
  assert (tasks_of other
            {| cleaningTasks := delete url (cleaningTasks st);
               timers := delete handle (timers st);
               next_timer := next_timer st;
               tracked_messages := tracked_messages st;
               db_open := db_open st |} = tasks_of other st) as Htimers.
  { unfold tasks_of. simpl. rewrite map_filter_delete.
    apply delete_id, map_lookup_filter_None. right. intros t Ht Hu.
    simpl in Hu. destruct (tasks_alive _ Hc _ _ Hl) as (t' & Ht' & Hu').
    congruence. }
  pose proof (deleteMessage_other url other (tracked_messages st) Hne)
    as Hrows.
  destruct (db_throws w); cbn [fst snd]; simpl;
    rewrite ?lookup_delete_ne by done; done.
Qed.

End ReferenceFacts.

Lemma enable_not_started_changes_nothing_witness :
  let st' :=
    (EnableCmd.body Fixture.calm Fixture.other EnableCmd.nothing
       Fixture.cleaning).2 in
  cleaningTasks st' = cleaningTasks Fixture.cleaning
  ∧ timers st' = timers Fixture.cleaning
  ∧ tracked_messages st' = [Fixture.row]
  ∧ db_open st' = true.
Proof.
  apply (enable_not_started_changes_nothing Fixture.calm Fixture.other
           EnableCmd.nothing Fixture.cleaning consistent_cleaning).
  vm_compute. discriminate.
Defined.

Lemma enable_started_is_tracked_witness :
  let st' :=
    (EnableCmd.body Fixture.calm Fixture.url EnableCmd.nothing initial).2 in
  is_Some (cleaningTasks st' !! Fixture.url) ∧ Fixture.url ∈ tracked st'.
Proof.
  destruct (enable_started_is_tracked Fixture.calm Fixture.url
              EnableCmd.nothing initial ltac:(by vm_compute))
    as (Htask & Hrow & _).
  by split.
Defined.

Lemma enable_then_disable_restores_witness :
  DisableCmd.body Fixture.calm Fixture.url DisableCmd.nothing
    (EnableCmd.body Fixture.calm Fixture.url EnableCmd.nothing initial).2
  = (DisableCmd.push_stopped Fixture.url DisableCmd.nothing,
     {| cleaningTasks := ∅; timers := ∅; next_timer := 1;
        tracked_messages := []; db_open := true |}).
Proof.
  apply (enable_then_disable_restores Fixture.calm Fixture.calm Fixture.url
           EnableCmd.nothing DisableCmd.nothing initial consistent_initial).
  - apply not_elem_of_nil.
  - by vm_compute.
  - reflexivity.
Defined.

Lemma disable_twice_not_running_witness :
  let st1 :=
    (DisableCmd.body Fixture.disk_full Fixture.url DisableCmd.nothing
       Fixture.cleaning).2 in
  DisableCmd.body Fixture.calm Fixture.url DisableCmd.nothing st1
  = (DisableCmd.push_notRunning Fixture.url DisableCmd.nothing, st1).
Proof.
  apply (disable_twice_not_running Fixture.disk_full Fixture.calm Fixture.url
           DisableCmd.nothing DisableCmd.nothing Fixture.cleaning).
  vm_compute. eauto.
Defined.

Lemma disable_leaves_other_references_witness :
  let st' :=
    (DisableCmd.body Fixture.calm Fixture.other DisableCmd.nothing
       Fixture.cleaning).2 in
  cleaningTasks st' !! Fixture.url = cleaningTasks Fixture.cleaning !! Fixture.url
  ∧ tasks_of Fixture.url st' = tasks_of Fixture.url Fixture.cleaning
  ∧ List.filter (λ row, bool_decide (message_url row = Fixture.url))
      (tracked_messages st')
    = List.filter (λ row, bool_decide (message_url row = Fixture.url))
        (tracked_messages Fixture.cleaning).
Proof.
  apply (disable_leaves_other_references Fixture.calm Fixture.other
           Fixture.url DisableCmd.nothing Fixture.cleaning consistent_cleaning).
  discriminate.
Defined.

(** ** Disabling everything when the clear statement throws *)

(** X11: when tasks are running and the clear statement throws, the command
    still stops every task (no entry in the task map, no live interval) and
    reports the failure with the number of tasks it stopped, while the
    table keeps every row. *)
Theorem disableAll_clear_failure_keeps_rows
    (w : Env) (st : State) (dbError : string) :
  consistent st →
  cleaningTasks st ≠ ∅ →
  db_throws w = Some dbError →
  let r := DisableAllCmd.handler w st in
  r.1 = DisableAllCmd.ClearFailed (size (cleaningTasks st))
  ∧ cleaningTasks r.2 = ∅
  ∧ timers r.2 = ∅
  ∧ tracked_messages r.2 = tracked_messages st.
Proof.
  intros Hc Hne Hdb r. subst r. unfold DisableAllCmd.handler.
  destruct (activeUrls st) as [|u urls] eqn:Hurls.
  { by apply activeUrls_nil in Hurls. }
  rewrite <- Hurls. replace (length (activeUrls st) =? 0) with false
    by (by rewrite Hurls).
  rewrite Hdb. cbn [fst snd].
  destruct (stopEach_all st Hc) as [Htasks Htimers].
  destruct (stopEach_rows (activeUrls st) st) as [Hrows _].
  split; [| done].
  unfold activeUrls. by rewrite length_fmap, length_map_to_list.
Qed.

Lemma disableAll_clear_failure_keeps_rows_witness :
  let r := DisableAllCmd.handler Fixture.disk_full Fixture.cleaning in
  r.1 = DisableAllCmd.ClearFailed (size (cleaningTasks Fixture.cleaning))
  ∧ cleaningTasks r.2 = ∅
  ∧ timers r.2 = ∅
  ∧ tracked_messages r.2 = tracked_messages Fixture.cleaning.
Proof.
  apply (disableAll_clear_failure_keeps_rows Fixture.disk_full
           Fixture.cleaning "SqliteError: database or disk is full"
           consistent_cleaning).
  - by vm_compute.
  - reflexivity.
Defined.

(** ** Restoring at boot, further *)

Lemma restoreLoop_rows_subset world k result st row :
  row ∈ tracked_messages (restoreLoop world k result st) →
  row ∈ tracked_messages st.
Proof.
  revert k st. induction result as [|r rest IH]; intros k st Hin; [done |].
  simpl in Hin.
  pose proof (startCleaning_state (gateway (world k)) (message_url r)
                (channel_id r) (message_id r) st) as Hstate.
  destruct (startCleaning (gateway (world k)) (message_url r)
              (channel_id r) (message_id r) st) as [result st1].
  cbn [snd] in Hstate.
  assert (tracked_messages st1 = tracked_messages st) as Hrows.
  { by destruct Hstate as [-> | (m & _ & ->)]. }
  destruct (success result).
  - apply IH in Hin. by rewrite <- Hrows.
  - destruct (db_throws (world k)); [by rewrite <- Hrows |].
    apply IH in Hin. simpl in Hin.
    apply list_elem_of_In, filter_In in Hin as [Hin _].
    rewrite <- Hrows. by apply list_elem_of_In.
Qed.

Lemma restoreLoop_prunes world k result st i row :
  (∀ j, db_throws (world j) = None) →
  result !! i = Some row →
  ¬ resolves (gateway (world (k + i))) row →
  message_url row ∉ tracked (restoreLoop world k result st).
Proof.
  intros Hdb. revert k i st.
  induction result as [|r rest IH]; intros k i st Hi Hdead; [done |].
  simpl.
  pose proof (startCleaning_success (gateway (world k)) (message_url r)
                (channel_id r) (message_id r) st) as Hinv.
  pose proof (startCleaning_failure_state (gateway (world k)) (message_url r)
                (channel_id r) (message_id r) st) as Hfail.
  destruct (startCleaning (gateway (world k)) (message_url r)
              (channel_id r) (message_id r) st) as [result st1].
  cbn [fst snd] in *.
  destruct i as [|i].
  - injection Hi as ->. rewrite Nat.add_0_r in Hdead.
    destruct (success result).
    { exfalso. apply Hdead.
      destruct (Hinv eq_refl) as (c & msg & Hch & Hu & Hm & _). by exists c, msg. }
    rewrite Hdb, (Hfail eq_refl). unfold tracked.
    intros Hin. apply list_elem_of_fmap in Hin as (r' & Hurl & Hin).
    apply restoreLoop_rows_subset in Hin. simpl in Hin.
    apply list_elem_of_In, filter_In in Hin as [_ Hne].
    apply negb_true_iff, bool_decide_eq_false in Hne. congruence.
  - simpl in Hi. replace (k + S i) with (S k + i) in Hdead by lia.
    destruct (success result); [by eapply IH |].
    rewrite Hdb. by eapply IH.
Qed.

(** X12: a row whose channel or message no longer resolves is pruned by one
    pass of the restore (no database fault assumed): after the pass the
    table has no row for its URL. *)
Theorem restore_prunes_dead_reference
    (world : nat → Env) (st : State) (i : nat) (row : TrackedMessage) :
  (∀ j, db_throws (world j) = None) →
  tracked_messages st !! i = Some row →
  ¬ resolves (gateway (world i)) row →
  message_url row ∉ tracked (restoreCleaningTasks world st).
Proof.
  intros Hdb Hi Hdead. unfold restoreCleaningTasks, getAllMessages.
  by apply (restoreLoop_prunes world 0 (tracked_messages st) st i row).
Qed.



(** X14: a pass of the restore never adds or changes a row (every row of
    the table after it was a row before) and never stops a task: every
    entry of the task map is still there, under the same handle, with its
    interval alive. *)
Theorem restore_only_prunes (world : nat → Env) (st : State) :
  consistent st →
  let st' := restoreCleaningTasks world st in
  (∀ row, row ∈ tracked_messages st' → row ∈ tracked_messages st)
  ∧ (∀ url handle, cleaningTasks st !! url = Some handle →
       cleaningTasks st' !! url = Some handle
       ∧ timers st' !! handle = timers st !! handle)
  ∧ consistent st'.
Proof.
  intros Hc st'. subst st'. unfold restoreCleaningTasks, getAllMessages.
  destruct (restoreLoop_keeps world 0 (tracked_messages st) st Hc)
    as [Hc' Hkeeps].
  split; [| by split].
  intros row. apply restoreLoop_rows_subset.
Qed.

Lemma restore_prunes_dead_reference_witness :
  Fixture.other
  ∉ tracked (restoreCleaningTasks (λ _, Fixture.calm)
               (with_rows
                  [Fixture.row;
                   {| message_url := Fixture.other; channel_id := "111";
                      message_id := "333";
                      added_at := "2025-01-01 00:00:00" |}] initial)).
Proof.
  apply (restore_prunes_dead_reference (λ _, Fixture.calm)
           (with_rows
              [Fixture.row;
               {| message_url := Fixture.other; channel_id := "111";
                  message_id := "333";
                  added_at := "2025-01-01 00:00:00" |}] initial)
           1 {| message_url := Fixture.other; channel_id := "111";
                message_id := "333"; added_at := "2025-01-01 00:00:00" |}).
  - done.
  - reflexivity.
  - intros (c & msg & Hch & _ & Hm). vm_compute in Hch.
    injection Hch as <-. vm_compute in Hm. discriminate.
Defined.


Lemma restore_only_prunes_witness :
  cleaningTasks
    (restoreCleaningTasks (λ _, Fixture.disk_full) Fixture.cleaning)
  !! Fixture.url = Some 0.
Proof.
  destruct (restore_only_prunes (λ _, Fixture.disk_full) Fixture.cleaning
              consistent_cleaning) as (_ & Hkeeps & _).
  by apply (Hkeeps Fixture.url 0).
Defined.

(** ** Invariants of a run *)



Section RunFacts.
Context `{UrlApi}.







End RunFacts.



Section SyncFacts.
Context `{UrlApi}.








(** X17: in every state the program reaches, a reference in the task map has
    exactly one live interval, the one the map holds, a reference that is
    not in the map has none, and the table has at most one row per URL. *)
Theorem one_interval_per_task
    (rows : list TrackedMessage) (evs : list Event) (url : string) :
  NoDup (message_url <$> rows) →
  let st := run evs (with_rows rows initial) in
  match cleaningTasks st !! url with
  | Some handle =>
      ∃ msg, tasks_of url st
             = {[ handle := {| timer_url := url; timer_message := msg |} ]}
  | None => tasks_of url st = ∅
  end
  ∧ NoDup (tracked st).
Proof.
  intros Hnd st.
  assert (consistent st) as Hc by (by apply consistent_reachable).
  split; [| apply (primary_key _ Hc)].
  destruct (cleaningTasks st !! url) as [handle|] eqn:Hl.
  - by apply tasks_of_running.
  - by apply tasks_of_none.
Qed.

End SyncFacts.


Lemma one_interval_per_task_witness :
  let st :=
    run [Ready (λ _, Fixture.calm)] (with_rows [Fixture.row] initial) in
  (∃ msg, tasks_of Fixture.url st
          = {[ 0 := {| timer_url := Fixture.url; timer_message := msg |} ]})
  ∧ NoDup (tracked st).
Proof.
  apply (one_interval_per_task [Fixture.row] [Ready (λ _, Fixture.calm)]
           Fixture.url).
  apply NoDup_singleton.
Defined.

(** ** The list command *)






Section ListFacts.
Context `{UrlApi}.




End ListFacts.


(** ** The ids the locator returns, and an empty batch *)

Lemma split_part_no_separator sep s part :
  In part (Js.split sep s) → ¬ In sep (list_ascii_of_string part).
Proof.
  revert part. induction s as [|c s IH]; intros part.
  { simpl. intros [<- | []]. simpl. tauto. }
  simpl. destruct (Ascii.eqb c sep) eqn:Hc.
  - intros [<- | Hin]; [simpl; tauto | by apply IH].
  - apply Ascii.eqb_neq in Hc.
    destruct (Js.split sep s) as [|p ps] eqn:Hsplit.
    + intros [<- | []]. simpl. intros [Heq | []]. congruence.
    + intros [<- | Hin].
      * simpl. intros [Heq | Hp]; [congruence |].
        by apply (IH p (or_introl eq_refl)).
      * apply IH. by right.
Qed.

Section IdFacts.
Context `{UrlApi}.

(** X19: the ids a parsed reference carries are never empty and never
    contain a slash, whatever the URL was. *)
Theorem parsed_ids_are_path_segments (url : string) (p : ParsedUrl) :
  parseMessageUrl url = Some p →
  channelId p ≠ EmptyString ∧ messageId p ≠ EmptyString
  ∧ ¬ In "/"%char (list_ascii_of_string (channelId p))
  ∧ ¬ In "/"%char (list_ascii_of_string (messageId p)).
Proof.
  intros Hp. destruct (parseMessageUrl_inv url p Hp)
    as (pathname & guild & rest & _ & Hparts).
  assert (∀ part, In part [channelId p; messageId p] →
                  part ≠ EmptyString
                  ∧ ¬ In "/"%char (list_ascii_of_string part)) as Hseg.
  { intros part Hin.
    assert (In part (List.filter Js.nonempty (Js.split "/" pathname))) as Hf.
    { rewrite Hparts. simpl in *. tauto. }
    apply filter_In in Hf as [Hsplit Hne]. split.
    - by intros ->.
    - by apply (split_part_no_separator "/" pathname). }
  destruct (Hseg (channelId p)) as [? ?]; [by left |].
  destruct (Hseg (messageId p)) as [? ?]; [by right; left |].
  done.
Qed.

(** X20: an option string with nothing but commas and white space in it (the
    empty string included) starts and stops nothing: the enable command
    leaves the state alone with four empty lists, the disable command
    leaves it alone with its "No message URL(s) provided." reply. *)
Theorem blank_option_string_does_nothing
    (world : nat → Env) (messageUrlsRaw : string) (st : State) :
  forallb ascii_separator (list_ascii_of_string messageUrlsRaw) = true →
  Interaction.enableReactionCleaning world messageUrlsRaw st
  = (EnableCmd.nothing, st)
  ∧ Interaction.disableReactionCleaning world messageUrlsRaw st = (None, st).
Proof.
  intros Hblank.
  unfold Interaction.enableReactionCleaning,
    Interaction.disableReactionCleaning.
  by rewrite (splitUrls_only_separators _ Hblank).
Qed.

End IdFacts.

Lemma parsed_ids_are_path_segments_witness :
  ¬ In "/"%char (list_ascii_of_string "111")
  ∧ ¬ In "/"%char (list_ascii_of_string "222").
Proof.
  destruct (parsed_ids_are_path_segments Fixture.url
              {| channelId := "111"; messageId := "222" |}
              ltac:(by vm_compute)) as (_ & _ & Hc & Hm).
  by split.
Defined.

Lemma blank_option_string_does_nothing_witness :
  Interaction.enableReactionCleaning (λ _, Fixture.calm) " , " Fixture.cleaning
  = (EnableCmd.nothing, Fixture.cleaning)
  ∧ Interaction.disableReactionCleaning (λ _, Fixture.calm) " , "
      Fixture.cleaning
    = (None, Fixture.cleaning).
Proof.
  apply (blank_option_string_does_nothing (λ _, Fixture.calm) " , "
           Fixture.cleaning).
  reflexivity.
Defined.
